(** * Statistical distribution engine: special functions, registry, point sampler

    A shallow embedding of the distribution module (the file that declares
    [ParamDef], [Distribution], the math helpers, the 21 families,
    [DISTRIBUTIONS] and [computePoints]).

    The TypeScript code computes on the type [number].  The embedding is
    written once, over an interface [Number] that lists the operations the
    code applies to numbers, and is then read in two arithmetics:

    - [JSNumber]: IEEE 754 binary64, the arithmetic the program runs on
      (Rocq's primitive floats), used to evaluate the code on concrete inputs;
    - [RealNumber]: exact real arithmetic, the arithmetic of the formulas,
      used for the statements quantified over every real [x].

    Three more components follow the engine: [App], the explorer that reads
    the registry and draws the sampled points; [Game], the tic-tac-toe game
    with its history of boards; and [Todos], the list operations of the todo
    application. *)

From Stdlib Require Import Floats.
From Stdlib Require Import ZArith QArith Reals Lra Lia Psatz List String Bool.
From Stdlib Require Import Sorted Permutation.
Import ListNotations.

Set Implicit Arguments.

(** ** The operations of [number] used by the module *)

Class Number (T : Type) := {
  (* a numeric literal of the source text *)
  lit : Q -> T;
  (* what a destructuring pattern binds past the end of the array; every use
     in the module is arithmetic or a comparison *)
  undefined : T;
  add : T -> T -> T;
  sub : T -> T -> T;
  mul : T -> T -> T;
  div : T -> T -> T;
  neg : T -> T;
  lt : T -> T -> bool;
  le : T -> T -> bool;
  strict_eq : T -> T -> bool;
  Math_PI : T;
  Math_abs : T -> T;
  Math_exp : T -> T;
  Math_log : T -> T;
  Math_sin : T -> T;
  Math_sqrt : T -> T;
  Math_round : T -> T;
  Math_ceil : T -> T;
  Math_floor : T -> T;
  Math_pow : T -> T -> T;
  Math_min : T -> T -> T;
  Math_max : T -> T -> T;
  isFinite : T -> bool;
  (* parseFloat(x.toFixed(6)) *)
  toFixed6 : T -> T;
  (* a bound on the number of naturals [i] with [i < k], for counted loops *)
  trip_count : T -> nat
}.

Declare Scope js_scope.
Delimit Scope js_scope with js.

Notation "# q" := (lit q%Q) (at level 1, q at level 0, format "# q") : js_scope.
Infix "+" := add : js_scope.
Infix "-" := sub : js_scope.
Infix "*" := mul : js_scope.
Infix "/" := div : js_scope.
Notation "- x" := (neg x) : js_scope.
Infix "<?" := lt (at level 70, no associativity) : js_scope.
Infix "<=?" := le (at level 70, no associativity) : js_scope.
Notation "x >? y" := (lt y x) (at level 70, no associativity) : js_scope.
Notation "x >=? y" := (le y x) (at level 70, no associativity) : js_scope.
Infix "===" := strict_eq (at level 70, no associativity) : js_scope.
Infix "**" := Math_pow (at level 30, right associativity) : js_scope.

(** ** Data model *)

Record ParamDef := {
  pname : string;
  label : string;
  min : Q;
  max : Q;
  step : Q;
  default : Q
}.

Inductive Kind := continuous | discrete.

Section Engine.

Context {T : Type} {N : Number T}.
Local Open Scope js_scope.

Record Distribution := {
  name : string;
  kind : Kind;
  params : list ParamDef;
  support : list T -> T * T;
  pdf : T -> list T -> T;
  description : string
}.

Record Point := { px : T; py : T }.

(** [params[i]] as an array pattern reads it. *)
Definition arg (ps : list T) (i : nat) : T := nth i ps undefined.

(** A parameter vector is valid for a family when it has one entry per
    [ParamDef] and every entry lies within the declared [min] and [max]. *)
Fixpoint in_range (defs : list ParamDef) (ps : list T) : bool :=
  match defs, ps with
  | [], [] => true
  | d :: defs', v :: ps' =>
      (lit (min d) <=? v) && (v <=? lit (max d)) && in_range defs' ps'
  | _, _ => false
  end.

(** ** Math helpers *)

Definition lanczos_g : T := #7.

Definition lanczos_c : list T :=
  [ #0.99999999999980993; #676.5203681218851; #(-1259.1392167224028);
    #771.32342877765313; #(-176.61502916214059); #12.507343278686905;
    #(-0.13857109526572012); #9.9843695780195716e-6; #1.5056327351493116e-7 ].

(** A loop counter that starts from an integer constant and is incremented
    by [i++] is kept as a natural number; [num i] is its value as a number. *)
Definition num (i : nat) : T := lit (inject_Z (Z.of_nat i)).

(** The loop [for (let i = 1; i < g + 2; i++) x += c[i] / (z + i)]. *)
Fixpoint lanczos_sum (fuel : nat) (z : T) (i : nat) (x : T) : T :=
  match fuel with
  | O => x
  | S f =>
      if num i <? lanczos_g + #2
      then lanczos_sum f z (S i) (x + nth i lanczos_c undefined / (z + num i))
      else x
  end.

Definition lanczos (z : T) : T :=
  let z := z - #1 in
  let x := lanczos_sum (trip_count (lanczos_g + #2)) z 1 (nth 0 lanczos_c undefined) in
  let t := z + lanczos_g + #0.5 in
  #0.5 * Math_log (#2 * Math_PI) + (z + #0.5) * Math_log t - t + Math_log x.

(** [logGamma] calls itself on [1 - z] when [z < 0.5]; [depth] bounds the
    chain of calls ([None]: the bound was reached). *)
Fixpoint logGamma_at (depth : nat) (z : T) : option T :=
  if z <? #0.5 then
    match depth with
    | O => None
    | S d =>
        option_map (fun r => Math_log (Math_PI / Math_sin (Math_PI * z)) - r)
                   (logGamma_at d (#1 - z))
    end
  else Some (lanczos z).

Definition logGamma (z : T) : T :=
  match logGamma_at 1 z with
  | Some r => r
  | None => undefined
  end.

Definition logBeta (a b : T) : T := logGamma a + logGamma b - logGamma (a + b).

(** The loop [for (let i = 0; i < k; i++) result *= (n - i) / (i + 1)]. *)
Fixpoint binom_loop (fuel : nat) (n k : T) (i : nat) (result : T) : T :=
  match fuel with
  | O => result
  | S f =>
      if num i <? k
      then binom_loop f n k (S i) (result * ((n - num i) / (num i + #1)))
      else result
  end.

Definition binomCoeff (n k : T) : T :=
  if (k <? #0) || (k >? n) then #0
  else if (k === #0) || (k === n) then #1
  else
    let k := Math_min k (n - k) in
    binom_loop (trip_count k) n k 0 #1.

Definition SQRT2 : T := Math_sqrt #2.
Definition SQRT2PI : T := Math_sqrt (#2 * Math_PI).

Definition normalPDF (x mu sigma : T) : T :=
  let z := (x - mu) / sigma in
  Math_exp (#(-0.5) * z * z) / (sigma * SQRT2PI).

Definition erf (x : T) : T :=
  let a1 := #0.254829592 in
  let a2 := #(-0.284496736) in
  let a3 := #1.421413741 in
  let a4 := #(-1.453152027) in
  let a5 := #1.061405429 in
  let p := #0.3275911 in
  let sign := if x <? #0 then #(-1) else #1 in
  let x := Math_abs x in
  let t := #1.0 / (#1.0 + p * x) in
  let y := #1.0 - (((((a5 * t + a4) * t) + a3) * t + a2) * t + a1) * t * Math_exp (- x * x) in
  sign * y.

Definition normalCDF (x : T) : T := #0.5 * (#1 + erf (x / SQRT2)).

(** ** Continuous distributions *)

Definition P (n l : string) (lo hi st dflt : Q) : ParamDef :=
  {| pname := n; label := l; min := lo; max := hi; step := st; default := dflt |}.

Definition Normal : Distribution := {|
  name := "Normal";
  kind := continuous;
  description := "μ is the mean, σ is the standard deviation.";
  params := [ P "mu" "μ (mean)" (-10) 10 0.1 0;
              P "sigma" "σ (std dev)" 0.1 10 0.1 1 ];
  support := fun ps => let mu := arg ps 0 in let sigma := arg ps 1 in
    (mu - #4 * sigma, mu + #4 * sigma);
  pdf := fun x ps => let mu := arg ps 0 in let sigma := arg ps 1 in
    normalPDF x mu sigma
|}.

Definition Beta : Distribution := {|
  name := "Beta";
  kind := continuous;
  description := "α and β shape the distribution on [0,1]. α=β=1 is Uniform.";
  params := [ P "alpha" "α (alpha)" 0.1 10 0.1 2;
              P "beta" "β (beta)" 0.1 10 0.1 5 ];
  support := fun _ => (#0, #1);
  pdf := fun x ps => let alpha := arg ps 0 in let beta := arg ps 1 in
    if (x <=? #0) || (x >=? #1) then #0
    else Math_exp
           ((alpha - #1) * Math_log x + (beta - #1) * Math_log (#1 - x) - logBeta alpha beta)
|}.

Definition Gamma : Distribution := {|
  name := "Gamma";
  kind := continuous;
  description := "α is the shape, β is the rate (1/scale). Mean = α/β.";
  params := [ P "alpha" "α (shape)" 0.1 10 0.1 2;
              P "beta" "β (rate)" 0.1 5 0.1 1 ];
  support := fun ps => let beta := arg ps 1 in (#0, #20 / beta);
  pdf := fun x ps => let alpha := arg ps 0 in let beta := arg ps 1 in
    if x <=? #0 then #0
    else Math_exp
           (alpha * Math_log beta + (alpha - #1) * Math_log x - beta * x - logGamma alpha)
|}.

Definition HalfNormal : Distribution := {|
  name := "HalfNormal";
  kind := continuous;
  description := "σ is the scale. Only the positive half of a Normal.";
  params := [ P "sigma" "σ (scale)" 0.1 10 0.1 1 ];
  support := fun ps => let sigma := arg ps 0 in (#0, #4 * sigma);
  pdf := fun x ps => let sigma := arg ps 0 in
    if x <? #0 then #0
    else (#2 / (sigma * SQRT2PI)) * Math_exp (#(-0.5) * (x / sigma) ** #2)
|}.

Definition Exponential : Distribution := {|
  name := "Exponential";
  kind := continuous;
  description := "λ (lam) is the rate. Mean = 1/λ.";
  params := [ P "lam" "λ (rate)" 0.1 5 0.1 1 ];
  support := fun ps => let lam := arg ps 0 in (#0, #6 / lam);
  pdf := fun x ps => let lam := arg ps 0 in
    if x <? #0 then #0
    else lam * Math_exp (- lam * x)
|}.

Definition Uniform : Distribution := {|
  name := "Uniform";
  kind := continuous;
  description := "Constant density between lower and upper bounds.";
  params := [ P "lower" "lower" (-10) 9 0.5 0;
              P "upper" "upper" (-9) 10 0.5 1 ];
  support := fun ps => let lower := arg ps 0 in let upper := arg ps 1 in
    (lower - #0.5, upper + #0.5);
  pdf := fun x ps => let lower := arg ps 0 in let upper := arg ps 1 in
    if upper <=? lower then #0
    else if (x >=? lower) && (x <=? upper) then #1 / (upper - lower) else #0
|}.

Definition StudentT : Distribution := {|
  name := "StudentT";
  kind := continuous;
  description := "ν is degrees of freedom, μ is location, σ is scale.";
  params := [ P "nu" "ν (df)" 1 30 0.5 5;
              P "mu" "μ (mean)" (-5) 5 0.1 0;
              P "sigma" "σ (scale)" 0.1 5 0.1 1 ];
  support := fun ps => let mu := arg ps 1 in let sigma := arg ps 2 in
    (mu - #5 * sigma, mu + #5 * sigma);
  pdf := fun x ps =>
    let nu := arg ps 0 in let mu := arg ps 1 in let sigma := arg ps 2 in
    let z := (x - mu) / sigma in
    Math_exp (logGamma ((nu + #1) / #2) - logGamma (nu / #2)) /
    (Math_sqrt (nu * Math_PI) * sigma) *
    Math_pow (#1 + z * z / nu) (- (nu + #1) / #2)
|}.

Definition LogNormal : Distribution := {|
  name := "LogNormal";
  kind := continuous;
  description := "μ and σ are the mean and std dev of the log. Strictly positive.";
  params := [ P "mu" "μ (log mean)" (-2) 3 0.1 0;
              P "sigma" "σ (log std)" 0.1 2 0.05 0.5 ];
  support := fun ps => let mu := arg ps 0 in let sigma := arg ps 1 in
    (#0, Math_exp (mu + #4 * sigma));
  pdf := fun x ps => let mu := arg ps 0 in let sigma := arg ps 1 in
    if x <=? #0 then #0
    else Math_exp (#(-0.5) * ((Math_log x - mu) / sigma) ** #2) /
         (x * sigma * SQRT2PI)
|}.

Definition Cauchy : Distribution := {|
  name := "Cauchy";
  kind := continuous;
  description := "α is location, β is scale. Heavy tails, no mean or variance.";
  params := [ P "alpha" "α (location)" (-5) 5 0.1 0;
              P "beta" "β (scale)" 0.1 5 0.1 1 ];
  support := fun ps => let alpha := arg ps 0 in let beta := arg ps 1 in
    (alpha - #8 * beta, alpha + #8 * beta);
  pdf := fun x ps => let alpha := arg ps 0 in let beta := arg ps 1 in
    let z := (x - alpha) / beta in
    #1 / (Math_PI * beta * (#1 + z * z))
|}.

Definition Laplace : Distribution := {|
  name := "Laplace";
  kind := continuous;
  description := "μ is the mean, b is the scale (diversity).";
  params := [ P "mu" "μ (mean)" (-5) 5 0.1 0;
              P "b" "b (scale)" 0.1 5 0.1 1 ];
  support := fun ps => let mu := arg ps 0 in let b := arg ps 1 in
    (mu - #6 * b, mu + #6 * b);
  pdf := fun x ps => let mu := arg ps 0 in let b := arg ps 1 in
    Math_exp (- Math_abs (x - mu) / b) / (#2 * b)
|}.

Definition Weibull : Distribution := {|
  name := "Weibull";
  kind := continuous;
  description := "α is shape, β is scale.";
  params := [ P "alpha" "α (shape)" 0.1 10 0.1 1.5;
              P "beta" "β (scale)" 0.1 5 0.1 1 ];
  support := fun ps => let beta := arg ps 1 in (#0, beta * #4);
  pdf := fun x ps => let alpha := arg ps 0 in let beta := arg ps 1 in
    if x <=? #0 then #0
    else (alpha / beta) * Math_pow (x / beta) (alpha - #1) *
         Math_exp (- Math_pow (x / beta) alpha)
|}.

Definition Triangular : Distribution := {|
  name := "Triangular";
  kind := continuous;
  description := "lower is min, c is mode, upper is max.";
  params := [ P "lower" "lower" (-10) 5 0.5 0;
              P "c" "c (mode)" (-9) 9 0.5 0.5;
              P "upper" "upper" (-5) 10 0.5 1 ];
  support := fun ps => let lower := arg ps 0 in let upper := arg ps 2 in
    (lower - #0.2, upper + #0.2);
  pdf := fun x ps =>
    let lower := arg ps 0 in let c := arg ps 1 in let upper := arg ps 2 in
    if (upper <=? lower) || (c <? lower) || (c >? upper) then #0
    else if (x <? lower) || (x >? upper) then #0
    else if x <? c then (#2 * (x - lower)) / ((upper - lower) * (c - lower))
    else if x === c then #2 / (upper - lower)
    else (#2 * (upper - x)) / ((upper - lower) * (upper - c))
|}.

Definition SkewNormal : Distribution := {|
  name := "SkewNormal";
  kind := continuous;
  description := "μ is location, σ is scale, α controls skewness.";
  params := [ P "mu" "μ (location)" (-5) 5 0.1 0;
              P "sigma" "σ (scale)" 0.1 5 0.1 1;
              P "alpha" "α (skew)" (-10) 10 0.5 3 ];
  support := fun ps => let mu := arg ps 0 in let sigma := arg ps 1 in
    (mu - #4 * sigma, mu + #4 * sigma);
  pdf := fun x ps =>
    let mu := arg ps 0 in let sigma := arg ps 1 in let alpha := arg ps 2 in
    let z := (x - mu) / sigma in
    (#2 / sigma) * normalPDF z #0 #1 * normalCDF (alpha * z)
|}.

Definition InverseGamma : Distribution := {|
  name := "InverseGamma";
  kind := continuous;
  description := "α is shape, β is scale. Support is (0, ∞).";
  params := [ P "alpha" "α (shape)" 0.5 10 0.1 2;
              P "beta" "β (scale)" 0.1 10 0.1 1 ];
  support := fun ps => let alpha := arg ps 0 in let beta := arg ps 1 in
    (#0, beta / (alpha - #1) * #8);
  pdf := fun x ps => let alpha := arg ps 0 in let beta := arg ps 1 in
    if x <=? #0 then #0
    else Math_exp
           (alpha * Math_log beta - logGamma alpha - (alpha + #1) * Math_log x - beta / x)
|}.

Definition Logistic : Distribution := {|
  name := "Logistic";
  kind := continuous;
  description := "μ is location, s is scale.";
  params := [ P "mu" "μ (location)" (-5) 5 0.1 0;
              P "s" "s (scale)" 0.1 5 0.1 1 ];
  support := fun ps => let mu := arg ps 0 in let s := arg ps 1 in
    (mu - #7 * s, mu + #7 * s);
  pdf := fun x ps => let mu := arg ps 0 in let s := arg ps 1 in
    let z := Math_exp (- (x - mu) / s) in
    z / (s * (#1 + z) ** #2)
|}.

(** ** Discrete distributions *)

Definition Binomial : Distribution := {|
  name := "Binomial";
  kind := discrete;
  description := "n is number of trials, p is success probability.";
  params := [ P "n" "n (trials)" 1 50 1 10;
              P "p" "p (prob)" 0.01 0.99 0.01 0.5 ];
  support := fun ps => let n := arg ps 0 in (#(-0.5), n + #0.5);
  pdf := fun x ps => let n := arg ps 0 in let p := arg ps 1 in
    let k := Math_round x in
    if (k <? #0) || (k >? n) then #0
    else binomCoeff n k * Math_pow p k * Math_pow (#1 - p) (n - k)
|}.

Definition Poisson : Distribution := {|
  name := "Poisson";
  kind := discrete;
  description := "μ is the expected number of events (mean = variance = μ).";
  params := [ P "mu" "μ (rate)" 0.5 30 0.5 5 ];
  support := fun ps => let mu := arg ps 0 in
    (#(-0.5), Math_max #20 (mu + #5 * Math_sqrt mu) + #0.5);
  pdf := fun x ps => let mu := arg ps 0 in
    let k := Math_round x in
    if k <? #0 then #0
    else Math_exp (k * Math_log mu - mu - logGamma (k + #1))
|}.

Definition NegativeBinomial : Distribution := {|
  name := "NegativeBinomial";
  kind := discrete;
  description := "n is number of successes, p is success probability.";
  params := [ P "n" "n (successes)" 1 30 1 5;
              P "p" "p (prob)" 0.01 0.99 0.01 0.5 ];
  support := fun ps => let n := arg ps 0 in let p := arg ps 1 in
    (#(-0.5),
     Math_ceil (n * (#1 - p) / p + #4 * Math_sqrt (n * (#1 - p) / (p * p))) + #0.5);
  pdf := fun x ps => let n := arg ps 0 in let p := arg ps 1 in
    let k := Math_round x in
    if k <? #0 then #0
    else Math_exp
           (logGamma (k + n) - logGamma n - logGamma (k + #1) +
            n * Math_log p + k * Math_log (#1 - p))
|}.

Definition Geometric : Distribution := {|
  name := "Geometric";
  kind := discrete;
  description := "p is the success probability. Counts trials until first success.";
  params := [ P "p" "p (prob)" 0.01 0.99 0.01 0.3 ];
  support := fun _ => (#0.5, #20.5);
  pdf := fun x ps => let p := arg ps 0 in
    let k := Math_round x in
    if k <? #1 then #0
    else p * Math_pow (#1 - p) (k - #1)
|}.

Definition DiscreteUniform : Distribution := {|
  name := "DiscreteUniform";
  kind := discrete;
  description := "Equal probability for each integer from lower to upper.";
  params := [ P "lower" "lower" (-20) 0 1 1;
              P "upper" "upper" 1 20 1 6 ];
  support := fun ps => let lower := arg ps 0 in let upper := arg ps 1 in
    (lower - #0.5, upper + #0.5);
  pdf := fun x ps => let lower := arg ps 0 in let upper := arg ps 1 in
    let k := Math_round x in
    if (k <? lower) || (k >? upper) || (upper <? lower) then #0
    else #1 / (upper - lower + #1)
|}.

Definition Bernoulli : Distribution := {|
  name := "Bernoulli";
  kind := discrete;
  description := "p is the probability of success (outcome = 1).";
  params := [ P "p" "p (prob)" 0.01 0.99 0.01 0.5 ];
  support := fun _ => (#(-0.5), #1.5);
  pdf := fun x ps => let p := arg ps 0 in
    let k := Math_round x in
    if k === #0 then #1 - p
    else if k === #1 then p
    else #0
|}.

Definition DISTRIBUTIONS : list Distribution :=
  [ (* Continuous *)
    Normal; Beta; Gamma; HalfNormal; Exponential; Uniform;
    StudentT; LogNormal; Cauchy; Laplace; Weibull; Triangular;
    SkewNormal; InverseGamma; Logistic;
    (* Discrete *)
    Binomial; Poisson; NegativeBinomial; Geometric; DiscreteUniform; Bernoulli ].

(** ** Point sampler *)

(** The loop [for (let k = lo_i; k <= hi_i; k++) points.push(...)].  [k] is a
    number here, it starts from a computed bound.  [None]: the loop was still
    running when [fuel] ran out. *)
Fixpoint discrete_loop (fuel : nat) (dist : Distribution) (ps : list T)
    (k hi_i : T) : option (list Point) :=
  if k <=? hi_i then
    match fuel with
    | O => None
    | S f =>
        option_map (cons {| px := k; py := pdf dist k ps |})
                   (discrete_loop f dist ps (k + #1) hi_i)
    end
  else Some [].

(** The loop [for (let i = 0; i <= numPoints; i++) { ... points.push(...) }]. *)
Fixpoint continuous_loop (fuel : nat) (dist : Distribution) (ps : list T)
    (lo step numPoints : T) (i : nat) : option (list Point) :=
  if num i <=? numPoints then
    match fuel with
    | O => None
    | S f =>
        let x := lo + num i * step in
        let y := pdf dist x ps in
        option_map (cons {| px := toFixed6 x; py := if isFinite y then y else #0 |})
                   (continuous_loop f dist ps lo step numPoints (S i))
    end
  else Some [].

Definition computePoints (fuel : nat) (dist : Distribution) (ps : list T)
    (numPoints : T) : option (list Point) :=
  let '(lo, hi) := support dist ps in
  match kind dist with
  | discrete =>
      let lo_i := Math_ceil (lo + #0.5) in
      let hi_i := Math_floor (hi - #0.5) in
      discrete_loop fuel dist ps lo_i hi_i
  | continuous =>
      let step := (hi - lo) / numPoints in
      continuous_loop fuel dist ps lo step numPoints 0
  end.

(** The default value of [numPoints]. *)
Definition defaultNumPoints : T := #300.

End Engine.

Arguments Distribution T : clear implicits.
Arguments Point T : clear implicits.

(** ** Exact real arithmetic

    The formulas read over the real numbers: no rounding, no overflow, and no
    [NaN] or [Infinity] ([undefined] and the quotient by zero are read as [0],
    as Rocq's total real functions do; the statements below keep to inputs on
    which the code does not reach them). *)

Module Exact.
Local Open Scope R_scope.

Definition ltb (x y : R) : bool := if Rlt_dec x y then true else false.
Definition leb (x y : R) : bool := if Rle_dec x y then true else false.
Definition eqb (x y : R) : bool := if Req_dec_T x y then true else false.

Definition floor (x : R) : Z := Int_part x.
Definition ceil (x : R) : Z := (- Int_part (- x))%Z.
(** Math.round: the closest integer, ties towards [+∞]. *)
Definition round (x : R) : Z := Int_part (x + / 2).

(** Math.pow on a positive base, and on any base with an integral exponent. *)
Definition pow (b e : R) : R :=
  if Req_dec_T (IZR (Int_part e)) e then powerRZ b (Int_part e) else Rpower b e.

(** toFixed(6) rounds the magnitude to the closest multiple of [10^-6], the
    larger one on a tie, and keeps the sign; [parseFloat] reads it back. *)
Definition toFixed6 (x : R) : R :=
  if Rlt_dec x 0
  then - (IZR (round (- x * 1000000)) / 1000000)
  else IZR (round (x * 1000000)) / 1000000.

End Exact.

#[export] Instance RealNumber : Number R := {|
  lit := Q2R;
  undefined := 0%R;
  add := Rplus;
  sub := Rminus;
  mul := Rmult;
  div := Rdiv;
  neg := Ropp;
  lt := Exact.ltb;
  le := Exact.leb;
  strict_eq := Exact.eqb;
  Math_PI := PI;
  Math_abs := Rabs;
  Math_exp := exp;
  Math_log := ln;
  Math_sin := sin;
  Math_sqrt := sqrt;
  Math_round := fun x => IZR (Exact.round x);
  Math_ceil := fun x => IZR (Exact.ceil x);
  Math_floor := fun x => IZR (Exact.floor x);
  Math_pow := Exact.pow;
  Math_min := Rmin;
  Math_max := Rmax;
  isFinite := fun _ => true;
  toFixed6 := Exact.toFixed6;
  trip_count := fun k => Z.to_nat (up k)
|}.

(** ** IEEE 754 binary64, the arithmetic of [number] *)

Module Binary64.
Local Open Scope float_scope.

(** The double closest to an integer (exact up to [2^53]). *)
Definition of_Z (z : Z) : float := SF2Prim (binary_normalize prec emax z 0 false).

(** The double closest to a decimal literal. *)
Definition of_Q (q : Q) : float :=
  match Qnum q with
  | Z0 => 0
  | Zpos n => SF2Prim (SFdiv prec emax (S754_finite false n 0) (S754_finite false (Qden q) 0))
  | Zneg n => SF2Prim (SFdiv prec emax (S754_finite true n 0) (S754_finite false (Qden q) 0))
  end.

(** The integer part, towards [-∞], of [(-1)^s * m * 2^e]. *)
Definition floorZ (s : bool) (m : positive) (e : Z) : Z :=
  Z.shiftl (cond_Zopp s (Zpos m)) e.

Definition signed_zero (s : bool) : float := if s then neg_zero else zero.

(** An integer as a double, a zero taking the sign [s]. *)
Definition of_Z_signed (s : bool) (z : Z) : float :=
  if (z =? 0)%Z then signed_zero s else of_Z z.

Definition floor (x : float) : float :=
  match Prim2SF x with
  | S754_finite s m e => if (0 <=? e)%Z then x else of_Z_signed s (floorZ s m e)
  | _ => x
  end.

Definition ceil (x : float) : float :=
  match Prim2SF x with
  | S754_finite s m e => if (0 <=? e)%Z then x else of_Z_signed s (- floorZ (negb s) m e)
  | _ => x
  end.

(** Math.round: [floor(x + 1/2)] computed exactly. *)
Definition round (x : float) : float :=
  match Prim2SF x with
  | S754_finite s m e =>
      if (0 <=? e)%Z then x
      else of_Z_signed s (Z.shiftl (2 * cond_Zopp s (Zpos m) + Z.shiftl 1 (- e)) (e - 1))
  | _ => x
  end.

Definition min (x y : float) : float :=
  if is_nan x || is_nan y then nan
  else if x <? y then x else if y <? x then y
  else if get_sign x then x else y.

Definition max (x y : float) : float :=
  if is_nan x || is_nan y then nan
  else if x <? y then y else if y <? x then x
  else if get_sign x then y else x.

(** parseFloat(x.toFixed(6)).  From [10^21] on, toFixed prints the number
    as [String(x)] does, and [parseFloat] reads the same double back. *)
Definition toFixed6 (x : float) : float :=
  match Prim2SF x with
  | S754_finite s m e =>
      if of_Z (10 ^ 21) <=? PrimFloat.abs x then x
      else
        let n := Z.shiftl (2 * (Zpos m * 1000000) + Z.shiftl 1 (- e)) (e - 1) in
        if (n =? 0)%Z then signed_zero s
        else of_Q (Qmake (cond_Zopp s n) 1000000)
  | S754_zero _ => zero
  | _ => x
  end.

(** The number of naturals [i] with [i < k]. *)
Definition trip_count (k : float) : nat :=
  match Prim2SF k with
  | S754_finite false m e => Z.to_nat (- floorZ true m e)
  | _ => O
  end.

Definition is_integer (x : float) : bool :=
  match Prim2SF x with
  | S754_finite _ m e => (0 <=? e)%Z || (Z.land (Zpos m) (Z.shiftl 1 (- e) - 1) =? 0)%Z
  | S754_zero _ => true
  | _ => false
  end.

Definition is_odd_integer (x : float) : bool :=
  match Prim2SF x with
  | S754_finite _ m e =>
      if (0 <? e)%Z then false
      else is_integer x && Z.odd (Z.shiftl (Zpos m) e)
  | _ => false
  end.

(** The functions of [Math] that ECMAScript leaves implementation-approximated. *)
Record MathImpl := {
  m_exp : float -> float;
  m_log : float -> float;
  m_sin : float -> float;
  m_pow : float -> float -> float
}.

(** *** A reference [Math]

    [Math.exp], [Math.log], [Math.sin] and [Math.pow] are built-ins of the
    runtime, not code of the repository.  ECMAScript fixes their values on
    [NaN], the zeros and the infinities and leaves the rest
    implementation-approximated.  [Math_ref] follows the fixed cases and
    approximates the rest by argument reduction and a truncated series; it is
    the instance on which the code is evaluated, and the statements that
    hold whatever these functions return quantify over [MathImpl]. *)

Definition horner (cs : list float) (r : float) : float :=
  fold_right (fun c acc => c + r * acc) 0 cs.

Definition factorial (n : nat) : Z := fold_left Z.mul (map Z.of_nat (seq 1 n)) 1%Z.

Definition inv_fact (n : nat) : float := of_Q (Qmake 1 (Z.to_pos (factorial n))).

Definition ln2_hi : float := 0x1.62e42feep-1.
Definition ln2_lo : float := 0x1.a39ef35793c76p-33.
Definition ln2 : float := 0x1.62e42fefa39efp-1.
Definition log2e : float := 0x1.71547652b82fep+0.
Definition pi : float := 0x1.921fb54442d18p+1.
Definition pi_lo : float := 0x1.1a62633145c07p-53.

(** [floor(x + 1/2)] as an integer, [0] when [x] is not finite. *)
Definition nearestZ (x : float) : Z :=
  match Prim2SF (x + 0.5) with
  | S754_finite s m e => floorZ s m e
  | _ => 0%Z
  end.

Definition exp_ref (x : float) : float :=
  if is_nan x then nan
  else if 0x1.62e42fefa39efp+9 <? x then infinity
  else if x <? -0x1.74910d52d3052p+9 then 0
  else
    let k := nearestZ (x * log2e) in
    let r := (x - of_Z k * ln2_hi) - of_Z k * ln2_lo in
    Z.ldexp (horner (map inv_fact (seq 0 15)) r) k.

Definition log_ref (x : float) : float :=
  if is_nan x then nan
  else if x <? 0 then nan
  else if x =? 0 then neg_infinity
  else if x =? infinity then infinity
  else
    let (m, e) := Z.frexp x in
    let (m, e) := if m <? 0x1.6a09e667f3bcdp-1 then (2 * m, (e - 1)%Z) else (m, e) in
    let f := (m - 1) / (m + 1) in
    let odd_inv := map (fun j => of_Q (Qmake 1 (Pos.of_nat (2 * j + 1)))) (seq 0 13) in
    2 * f * horner odd_inv (f * f) + of_Z e * ln2.

Definition sin_ref (x : float) : float :=
  if is_finite x then
    let k := nearestZ (x / pi) in
    let r := (x - of_Z k * pi) - of_Z k * pi_lo in
    let cs := map (fun j => let c := inv_fact (2 * j + 1) in
                            if Nat.even j then c else - c) (seq 0 12) in
    let s := r * horner cs (r * r) in
    if Z.even k then s else - s
  else nan.

(** [b^n] for a positive integer [n], by squaring. *)
Fixpoint pow_pos (b : float) (n : positive) : float :=
  match n with
  | xH => b
  | xO n' => let h := pow_pos b n' in h * h
  | xI n' => let h := pow_pos b n' in b * (h * h)
  end.

Definition pow_ref (b e : float) : float :=
  let a := PrimFloat.abs b in
  if is_nan e then nan
  else if e =? 0 then 1
  else if is_nan b then nan
  else if is_infinity b || (b =? 0) then
    (* the result is a zero or an infinity; it is negative only for a negative
       base and an odd integral exponent *)
    let s := get_sign b && is_odd_integer e in
    if Bool.eqb (is_infinity b) (0 <? e)
    then (if s then neg_infinity else infinity)
    else signed_zero s
  else if is_infinity e then
    if a =? 1 then nan
    else if Bool.eqb (1 <? a) (0 <? e) then infinity else 0
  else if (b <? 0) && negb (is_integer e) then nan
  else if is_integer e && (PrimFloat.abs e <=? 1024) then
    match Prim2SF e with
    | S754_finite s m x =>
        let r := pow_pos b (Z.to_pos (floorZ false m x)) in
        if s then 1 / r else r
    | _ => nan
    end
  else
    let r := exp_ref (e * log_ref a) in
    if (b <? 0) && is_odd_integer e then - r else r.

Definition Math_ref : MathImpl :=
  {| m_exp := exp_ref; m_log := log_ref; m_sin := sin_ref; m_pow := pow_ref |}.

End Binary64.

Definition JSNumber (M : Binary64.MathImpl) : Number float := {|
  lit := Binary64.of_Q;
  undefined := nan;
  add := PrimFloat.add;
  sub := PrimFloat.sub;
  mul := PrimFloat.mul;
  div := PrimFloat.div;
  neg := PrimFloat.opp;
  lt := PrimFloat.ltb;
  le := PrimFloat.leb;
  strict_eq := PrimFloat.eqb;
  Math_PI := Binary64.pi;
  Math_abs := PrimFloat.abs;
  Math_exp := Binary64.m_exp M;
  Math_log := Binary64.m_log M;
  Math_sin := Binary64.m_sin M;
  Math_sqrt := PrimFloat.sqrt;
  Math_round := Binary64.round;
  Math_ceil := Binary64.ceil;
  Math_floor := Binary64.floor;
  Math_pow := Binary64.m_pow M;
  Math_min := Binary64.min;
  Math_max := Binary64.max;
  isFinite := is_finite;
  toFixed6 := Binary64.toFixed6;
  trip_count := Binary64.trip_count
|}.

(** The program on doubles, with the reference [Math]. *)
#[export] Instance JS : Number float := JSNumber Binary64.Math_ref.

(** ** The explorer component

    The state and the derived values of [App], the component that draws the
    selected family: [paramValues] and its two accessors, the lookup of the
    selected family, and [stats]. *)

Module App.
Section App.

Context {T : Type} {N : Number T}.
Local Open Scope js_scope.

(** [paramValues], an object used as a map from keys to numbers, as the list
    of its own properties in insertion order.  Every key the component reads
    or writes has the shape [`${d.name}__${p.name}`]; no property that an
    object inherits is named like that for a registered family. *)
Definition ParamValues : Type := list (string * T).

(** [paramValues[key]]; [None] is [undefined]. *)
Fixpoint lookup (paramValues : ParamValues) (key : string) : option T :=
  match paramValues with
  | [] => None
  | (k, v) :: rest => if String.eqb k key then Some v else lookup rest key
  end.

(** [{ ...prev, [key]: value }]. *)
Fixpoint assign (prev : ParamValues) (key : string) (value : T) : ParamValues :=
  match prev with
  | [] => [(key, value)]
  | (k, v) :: rest =>
      if String.eqb k key then (k, value) :: rest else (k, v) :: assign rest key value
  end.

(** [`${dname}__${pname}`]. *)
Definition key (dname pname : string) : string := (dname ++ "__" ++ pname)%string.

Definition getParams (paramValues : ParamValues) (d : Distribution T) : list T :=
  map (fun p => match lookup paramValues (key (name d) (pname p)) with
                | Some v => v
                | None => lit (default p)
                end)
      (params d).

Definition handleParamChange (dist : Distribution T) (paramName : string) (value : T)
    (prev : ParamValues) : ParamValues :=
  assign prev (key (name dist) paramName) value.

(** [DISTRIBUTIONS.find((d) => d.name === selectedName)]. *)
Definition selected (selectedName : string) : option (Distribution T) :=
  find (fun d => String.eqb (name d) selectedName) DISTRIBUTIONS.

Definition CONTINUOUS : list (Distribution T) :=
  filter (fun d => match kind d with continuous => true | discrete => false end) DISTRIBUTIONS.

Definition DISCRETE : list (Distribution T) :=
  filter (fun d => match kind d with discrete => true | continuous => false end) DISTRIBUTIONS.

(** [ys.indexOf(v)]; [None] is [-1]. *)
Fixpoint indexOf (ys : list T) (v : T) : option nat :=
  match ys with
  | [] => None
  | y :: rest => if y === v then Some O else option_map S (indexOf rest v)
  end.

(** [{ maxY, modeX }]; [modeX] is [undefined] when [xs] is read at [-1]. *)
Record Stats := { maxY : T; modeX : option T }.

(** [stats]; [None] is [null].  [Math.max(...ys)] has at least one argument
    here: it folds [Math.max] over them. *)
Definition stats (points : list (Point T)) : option Stats :=
  match points with
  | [] => None
  | p :: rest =>
      let xs := map (@px T) points in
      let ys := map (@py T) points in
      let maxY := fold_left Math_max (map (@py T) rest) (py p) in
      let modeX := match indexOf ys maxY with
                   | Some i => nth_error xs i
                   | None => None
                   end in
      Some {| maxY := maxY; modeX := modeX |}
  end.

End App.
End App.

(** ** The tic-tac-toe game

    The second component of the file: [Square], [Board] and [Game] with its
    handlers, and [calculateWinner].  The state of [Game] is threaded
    explicitly; a handler that would raise a [TypeError] returns
    [TypeError]. *)

Module Game.

(** What an entry of [squares] evaluates to: [null] (from
    [Array(9).fill(null)]), a string, or [undefined] past the end of the
    array. *)
Inductive value := Undefined | Null | Str (s : string).

(** The test of a value by [if], [||] and [&&]. *)
Definition truthy (v : value) : bool :=
  match v with
  | Str s => negb (String.eqb s EmptyString)
  | _ => false
  end.

(** [v === w]. *)
Definition value_eq (v w : value) : bool :=
  match v, w with
  | Undefined, Undefined => true
  | Null, Null => true
  | Str s, Str t => String.eqb s t
  | _, _ => false
  end.

(** [squares[i]]. *)
Definition get (squares : list value) (i : nat) : value := nth i squares Undefined.

(** [squares[i] = v]: past the end the array grows, the entries in between
    read as [undefined]. *)
Fixpoint set (squares : list value) (i : nat) (v : value) : list value :=
  match i, squares with
  | O, [] => [v]
  | O, _ :: rest => v :: rest
  | S i', [] => Undefined :: set [] i' v
  | S i', x :: rest => x :: set rest i' v
  end.

Definition lines : list (nat * nat * nat) :=
  [ (0, 1, 2); (3, 4, 5); (6, 7, 8); (0, 3, 6);
    (1, 4, 7); (2, 5, 8); (0, 4, 8); (2, 4, 6) ]%nat.

(** The loop of [calculateWinner] over the lines that are left. *)
Fixpoint winner_loop (ls : list (nat * nat * nat)) (squares : list value) : value :=
  match ls with
  | [] => Null
  | (a, b, c) :: ls' =>
      if truthy (get squares a) && value_eq (get squares a) (get squares b)
         && value_eq (get squares a) (get squares c)
      then get squares a
      else winner_loop ls' squares
  end.

Definition calculateWinner (squares : list value) : value := winner_loop lines squares.

Record Entry := { squares : list value }.

Record GameState := {
  history : list Entry;
  stepNumber : nat;
  xIsNext : bool
}.

(** The state set by the constructor. *)
Definition initial : GameState :=
  {| history := [ {| squares := repeat Null 9 |} ]; stepNumber := 0; xIsNext := true |}.

Inductive result (A : Type) := Ok (a : A) | TypeError.
Arguments Ok {A} a.
Arguments TypeError {A}.

Definition handleClick (i : nat) (st : GameState) : result GameState :=
  let history := firstn (stepNumber st + 1)%nat (history st) in
  match nth_error history (List.length history - 1)%nat with
  | None => TypeError (* [current] is undefined, [current.squares] raises *)
  | Some current =>
      let squares := squares current in
      if truthy (calculateWinner squares) || truthy (get squares i) then Ok st
      else
        let squares := set squares i (Str (if xIsNext st then "X" else "O")) in
        Ok {| history := (history ++ [ {| squares := squares |} ])%list;
              stepNumber := List.length history;
              xIsNext := negb (xIsNext st) |}
  end.

Definition jumpTo (idx : nat) (st : GameState) : GameState :=
  {| history := history st; stepNumber := idx; xIsNext := Nat.eqb (idx mod 2) 0 |}.

(** [winner] inside ["Winner: " + winner]. *)
Definition to_string (v : value) : string :=
  match v with
  | Undefined => "undefined"
  | Null => "null"
  | Str s => s
  end.

(** The status line of [render]. *)
Definition status (st : GameState) : result string :=
  match nth_error (history st) (stepNumber st) with
  | None => TypeError (* [current] is undefined, [current.squares] raises *)
  | Some current =>
      let winner := calculateWinner (squares current) in
      if truthy winner then Ok ("Winner: " ++ to_string winner)%string
      else Ok ("Next Player: " ++ (if xIsNext st then "X" else "O"))%string
  end.

(** The events of the page: a click on square [i] calls [handleClick(i)], a
    click on the button of move [idx] calls [jumpTo(idx)]. *)
Inductive event := Click (i : nat) | GoTo (idx : nat).

Definition handle (e : event) (st : GameState) : result GameState :=
  match e with
  | Click i => handleClick i st
  | GoTo idx => Ok (jumpTo idx st)
  end.

(** [render] draws the squares 0 to 8 and one button for each entry of
    [history]. *)
Definition offered (st : GameState) (e : event) : bool :=
  match e with
  | Click i => (i <? 9)%nat
  | GoTo idx => (idx <? List.length (history st))%nat
  end.

Fixpoint play (es : list event) (st : GameState) : result GameState :=
  match es with
  | [] => Ok st
  | e :: es' =>
      match handle e st with
      | Ok st' => play es' st'
      | TypeError => TypeError
      end
  end.

(** Every event of [es] is one the page offers when it happens. *)
Fixpoint all_offered (es : list event) (st : GameState) : bool :=
  match es with
  | [] => true
  | e :: es' =>
      offered st e &&
      match handle e st with
      | Ok st' => all_offered es' st'
      | TypeError => true
      end
  end.

End Game.

(** ** The todo list

    The list operations of [TodoApp], [filterByStatus] of the export helpers
    and the count shown by [ExportPanel].  What the browser supplies
    ([String.prototype.trim], a fresh id, the current time) is an argument
    of the function that uses it. *)

Module Todos.

Inductive Priority := high | medium | low.
Inductive Filter := All | Active | Completed.
Inductive SortBy := Created | ByPriority | Alpha.

Record Todo := {
  id : string;
  text : string;
  completed : bool;
  priority : Priority;
  category : string;
  dueDate : option string;
  createdAt : string
}.

Definition PRIO_ORDER (p : Priority) : Z :=
  match p with
  | high => 0
  | medium => 1
  | low => 2
  end.

(** The update of [addTodo]: nothing for a text that trims to the empty
    string, the new todo in front otherwise. *)
Definition addTodo (trim : string -> string) (genId now : string)
    (text : string) (priority : Priority) (category : string) (dueDate : option string)
    (prev : list Todo) : list Todo :=
  if String.eqb (trim text) EmptyString then prev
  else {| id := genId; text := trim text; completed := false; priority := priority;
          category := category; dueDate := dueDate; createdAt := now |} :: prev.

(** The update of [toggleTodo]. *)
Definition toggleTodo (i : string) (prev : list Todo) : list Todo :=
  map (fun t => if String.eqb (id t) i
                then {| id := id t; text := text t; completed := negb (completed t);
                        priority := priority t; category := category t;
                        dueDate := dueDate t; createdAt := createdAt t |}
                else t)
      prev.

(** The update of [deleteTodo]. *)
Definition deleteTodo (i : string) (prev : list Todo) : list Todo :=
  filter (fun t => negb (String.eqb (id t) i)) prev.

(** [filterByStatus] of the export helpers. *)
Definition filterByStatus (todos : list Todo) (filter : Filter) : list Todo :=
  match filter with
  | Active => List.filter (fun t => negb (completed t)) todos
  | Completed => List.filter (fun t => completed t) todos
  | All => todos
  end.

(** [count] of [ExportPanel]. *)
Definition count (todos : list Todo) (filter : Filter) : nat :=
  match filter with
  | Active => List.length (List.filter (fun t => negb (completed t)) todos)
  | Completed => List.length (List.filter (fun t => completed t) todos)
  | All => List.length todos
  end.

(** The filter step of [filtered] in [TodoApp]. *)
Definition shown (todos : list Todo) (filter : Filter) : list Todo :=
  List.filter (fun t => match filter with
                        | Active => negb (completed t)
                        | Completed => completed t
                        | All => true
                        end)
              todos.

(** [activeCnt] of [TodoApp]. *)
Definition activeCnt (todos : list Todo) : nat :=
  List.length (List.filter (fun t => negb (completed t)) todos).

(** The comparator of [filtered] when [sortBy] is ['priority']. *)
Definition byPriority (a b : Todo) : Z := PRIO_ORDER (priority a) - PRIO_ORDER (priority b).

(** [Array.prototype.sort] with a comparator that orders its arguments
    consistently: the sort is stable, so the result is the one of any stable
    sort; here by insertion from the right. *)
Fixpoint insert (cmp : Todo -> Todo -> Z) (t : Todo) (sorted : list Todo) : list Todo :=
  match sorted with
  | [] => [t]
  | u :: rest => if (0 <? cmp t u)%Z then u :: insert cmp t rest else t :: sorted
  end.

Definition sort (cmp : Todo -> Todo -> Z) (todos : list Todo) : list Todo :=
  fold_right (insert cmp) [] todos.

(** [filtered] of [TodoApp] when [sortBy] is ['priority']. *)
Definition filtered_by_priority (todos : list Todo) (filter : Filter) : list Todo :=
  sort byPriority (shown todos filter).

End Todos.

(** ** Vocabulary of the statements *)

(** The polynomial of the Abramowitz–Stegun formula, [t] included. *)
Definition erf_poly (t : R) : R :=
  ((((1.061405429 * t + -1.453152027) * t + 1.421413741) * t + -0.284496736) * t
   + 0.254829592) * t.

(** The integers [a, a+1, ...], [n] of them. *)
Fixpoint Zrange (a : Z) (n : nat) : list Z :=
  match n with
  | O => []
  | S n' => a :: Zrange (a + 1) n'
  end.

(** The double of an integer, as a specified float. *)
Definition Zfloat (z : Z) : spec_float := binary_normalize prec emax z 0 false.

(** [a] is within [1e-6] of the decimal [q]. *)
Definition close_to (a : float) (q : Q) : bool :=
  PrimFloat.ltb (PrimFloat.abs (a - Binary64.of_Q q)) (Binary64.of_Q 1e-6).


(** The character [_], and the strings without it. *)
Definition underscore : Ascii.ascii := Ascii.ascii_of_nat 95.

Fixpoint no_underscore (s : string) : bool :=
  match s with
  | EmptyString => true
  | String c s' => negb (Ascii.eqb c underscore) && no_underscore s'
  end.

(** The strings of a list are pairwise different. *)
Fixpoint distinct (l : list string) : bool :=
  match l with
  | [] => true
  | x :: l' => negb (existsb (String.eqb x) l') && distinct l'
  end.

Section GameVocabulary.
Import Game.
Local Open Scope nat_scope.

(** The number of squares that hold [v]. *)
Definition occurrences (v : value) (sq : list value) : nat :=
  List.length (filter (value_eq v) sq).

(** The three squares of a line hold the same truthy value. *)
Definition complete (squares : list value) (l : nat * nat * nat) : bool :=
  let '(a, b, c) := l in
  truthy (get squares a) && value_eq (get squares a) (get squares b)
  && value_eq (get squares a) (get squares c).

(** A history that the game can reach is the list of the boards after
    0, 1, ..., n moves of a list [cs] of squares played in turn, [X] first. *)

Definition mark (k : nat) : value := Str (if Nat.even k then "X" else "O").

Fixpoint place (cs : list nat) (k : nat) (b : list value) : list value :=
  match cs with
  | [] => b
  | c :: cs' => place cs' (S k) (set b c (mark k))
  end.

Definition board_of (cs : list nat) : list value := place cs 0 (repeat Null 9).

Definition boards (cs : list nat) : list Entry :=
  map (fun k => {| squares := board_of (firstn k cs) |}) (seq 0 (S (List.length cs))).

Definition legal (cs : list nat) : Prop :=
  NoDup cs /\ Forall (fun c => c < 9) cs /\
  forall k, k < List.length cs -> truthy (calculateWinner (board_of (firstn k cs))) = false.

Definition Inv (st : GameState) : Prop :=
  exists cs, legal cs /\ history st = boards cs /\ stepNumber st <= List.length cs /\
             xIsNext st = Nat.even (stepNumber st).

End GameVocabulary.

(** * Properties *)

(** ** Reading the code over the reals *)

Section ExactFacts.
Local Open Scope R_scope.

Lemma ltb_true x y : Exact.ltb x y = true <-> x < y.
Proof. unfold Exact.ltb; destruct (Rlt_dec x y); split; intros; try easy. Qed.

Lemma ltb_false x y : Exact.ltb x y = false <-> y <= x.
Proof. unfold Exact.ltb; destruct (Rlt_dec x y); split; intros; try easy; lra. Qed.

Lemma leb_true x y : Exact.leb x y = true <-> x <= y.
Proof. unfold Exact.leb; destruct (Rle_dec x y); split; intros; try easy. Qed.

Lemma leb_false x y : Exact.leb x y = false <-> y < x.
Proof. unfold Exact.leb; destruct (Rle_dec x y); split; intros; try easy; lra. Qed.

Lemma eqb_true x y : Exact.eqb x y = true <-> x = y.
Proof. unfold Exact.eqb; destruct (Req_dec_T x y); split; intros; try easy. Qed.

Lemma eqb_false x y : Exact.eqb x y = false <-> x <> y.
Proof. unfold Exact.eqb; destruct (Req_dec_T x y); split; intros; try easy. Qed.

Lemma num_INR (i : nat) : num i = INR i.
Proof.
  unfold num; cbn [lit RealNumber]. unfold Q2R; cbn [Qnum Qden inject_Z].
  rewrite INR_IZR_INZ. field.
Qed.


Lemma Int_part_spec (x : R) : IZR (Int_part x) <= x < IZR (Int_part x) + 1.
Proof. destruct (base_Int_part x). lra. Qed.

Lemma Int_part_unique (x : R) (z : Z) : IZR z <= x < IZR z + 1 -> Int_part x = z.
Proof.
  intros Hz. destruct (Int_part_spec x) as [H1 H2].
  assert (IZR (Int_part x) < IZR z + 1) by lra.
  assert (IZR z < IZR (Int_part x) + 1) by lra.
  rewrite <- plus_IZR in *.
  apply lt_IZR in H, H0. lia.
Qed.



End ExactFacts.

(** Turns the tests of the code into real inequalities. *)
Ltac real_tests :=
  repeat match goal with
  | H : Exact.ltb _ _ = true |- _ => apply ltb_true in H
  | H : Exact.ltb _ _ = false |- _ => apply ltb_false in H
  | H : Exact.leb _ _ = true |- _ => apply leb_true in H
  | H : Exact.leb _ _ = false |- _ => apply leb_false in H
  | H : Exact.eqb _ _ = true |- _ => apply eqb_true in H
  | H : Exact.eqb _ _ = false |- _ => apply eqb_false in H
  | H : (_ && _)%bool = true |- _ => apply andb_true_iff in H; destruct H
  | H : (_ || _)%bool = false |- _ => apply orb_false_iff in H; destruct H
  end.

(** Reads the literals of the code as real constants. *)
Ltac real_lits :=
  cbn [lit add sub mul div neg lt le strict_eq Math_PI Math_abs Math_exp Math_log
       Math_sin Math_sqrt Math_round Math_ceil Math_floor Math_pow Math_min Math_max
       isFinite toFixed6 trip_count undefined RealNumber] in *;
  unfold Q2R in *; cbn [Qnum Qden] in *.

(** ** The loops run to completion

    The counted loops and the recursion of [logGamma] carry a bound in the
    embedding.  In exact arithmetic the bound is never what stops them: any
    larger bound gives the same value. *)

Section LoopsExact.
Local Open Scope R_scope.

Lemma up_nat_bound (k : R) (i : nat) : (Z.to_nat (up k) <= i)%nat -> k < INR i.
Proof.
  intros Hi. destruct (archimed k) as [Hu _].
  apply Rlt_le_trans with (1 := Hu).
  rewrite INR_IZR_INZ. apply IZR_le. lia.
Qed.

Lemma binom_loop_more_fuel (n k : R) :
  forall (f1 f2 i : nat) (r : R),
  (trip_count k <= i + f1)%nat -> (trip_count k <= i + f2)%nat ->
  binom_loop f1 n k i r = binom_loop f2 n k i r.
Proof.
  assert (Stop : forall (f i : nat) (r : R), (trip_count k <= i)%nat -> binom_loop f n k i r = r).
  { intros [|f] i r Hi; cbn [binom_loop]; [reflexivity|].
    rewrite num_INR. real_lits.
    replace (Exact.ltb (INR i) k) with false; [reflexivity|].
    symmetry. apply ltb_false. left. apply up_nat_bound. exact Hi. }
  induction f1 as [|f1 IH]; intros f2 i r H1 H2.
  - rewrite !Stop by lia. reflexivity.
  - destruct f2 as [|f2]; [rewrite !Stop by lia; reflexivity|].
    cbn [binom_loop]. destruct (num i <? k)%js; [|reflexivity].
    apply IH; lia.
Qed.

Lemma lanczos_sum_more_fuel (z : R) :
  forall (f1 f2 i : nat) (x : R),
  (9 <= i + f1)%nat -> (9 <= i + f2)%nat ->
  lanczos_sum f1 z i x = lanczos_sum f2 z i x.
Proof.
  assert (Stop : forall (f i : nat) (x : R), (9 <= i)%nat -> lanczos_sum f z i x = x).
  { intros [|f] i x Hi; cbn [lanczos_sum]; [reflexivity|].
    rewrite num_INR. unfold lanczos_g. real_lits.
    replace (Exact.ltb (INR i) (7 * / 1 + 2 * / 1)) with false; [reflexivity|].
    symmetry. apply ltb_false. apply (le_INR 9) in Hi. cbn [INR] in Hi. lra. }
  induction f1 as [|f1 IH]; intros f2 i x H1 H2.
  - rewrite !Stop by lia. reflexivity.
  - destruct f2 as [|f2]; [rewrite !Stop by lia; reflexivity|].
    cbn [lanczos_sum]. destruct (num i <? lanczos_g + #2)%js; [|reflexivity].
    apply IH; lia.
Qed.

Lemma lanczos_trip_count : (9 <= 1 + trip_count (T := R) (lanczos_g + #2)%js)%nat.
Proof.
  unfold lanczos_g. real_lits.
  assert (H : (9 < up (7 * / 1 + 2 * / 1))%Z).
  { apply lt_IZR. destruct (archimed (7 * / 1 + 2 * / 1)). lra. }
  lia.
Qed.

Lemma logGamma_depth (d : nat) (z : R) : logGamma_at (S d) z = logGamma_at 1 z.
Proof.
  cbn [logGamma_at]. destruct (z <? #0.5)%js eqn:E; [|reflexivity].
  real_lits. real_tests.
  assert (Exact.ltb (1 * / 1 - z) (5 * / 10) = false) as E' by (apply ltb_false; lra).
  destruct d; cbn [logGamma_at]; real_lits; rewrite E'; reflexivity.
Qed.

Lemma logGamma_defined (z : R) : logGamma_at 1 z <> None.
Proof.
  cbn [logGamma_at]. destruct (z <? #0.5)%js eqn:E; [|discriminate].
  real_lits. real_tests.
  assert (Exact.ltb (1 * / 1 - z) (5 * / 10) = false) as E' by (apply ltb_false; lra).
  rewrite E'. discriminate.
Qed.

End LoopsExact.

(** ** The error function *)

Section ErfExact.
Local Open Scope R_scope.

Lemma erf_real (x : R) :
  erf x =
  (if Rlt_dec x 0 then -1 else 1) *
  (1 - erf_poly (1 / (1 + 0.3275911 * Rabs x)) * exp (- Rabs x * Rabs x)).
Proof.
  unfold erf, erf_poly. real_lits. unfold Exact.ltb.
  replace (0 * / 1) with 0 by lra.
  assert (0 <= Rabs x) by apply Rabs_pos.
  destruct (Rlt_dec x 0); field; lra.
Qed.




End ErfExact.

Section ErfClaims.
Local Open Scope R_scope.



End ErfClaims.

(** ** Facts on doubles *)

Section FloatFacts.
Local Open Scope float_scope.

Lemma binary_round_aux_opp s m e l :
  binary_round_aux prec emax (negb s) m e l = SFopp (binary_round_aux prec emax s m e l).
Proof.
  unfold binary_round_aux.
  destruct (shr_fexp prec emax m e l) as [mrs e'].
  destruct (shr_fexp prec emax _ e' loc_Exact) as [mrs' e''].
  destruct (shr_m mrs'); [reflexivity | | reflexivity].
  destruct (e'' <=? emax - prec)%Z; reflexivity.
Qed.

Lemma SFmul_opp_l a b :
  SFmul prec emax (SFopp a) b = SFopp (SFmul prec emax a b).
Proof.
  destruct a as [sa|sa| |sa ma ea], b as [sb|sb| |sb mb eb]; cbn;
    try reflexivity;
    try (destruct sa, sb; reflexivity).
  rewrite <- binary_round_aux_opp. destruct sa, sb; reflexivity.
Qed.

Lemma mul_opp_l (a b : float) : (- a) * b = - (a * b).
Proof.
  apply Prim2SF_inj. rewrite opp_spec, !mul_spec, opp_spec.
  apply SFmul_opp_l.
Qed.

Lemma opp_involutive (a : float) : - - a = a.
Proof.
  apply Prim2SF_inj. rewrite !opp_spec. destruct (Prim2SF a); cbn;
    rewrite ?negb_involutive; reflexivity.
Qed.

Lemma abs_opp (a : float) : abs (- a) = abs a.
Proof.
  apply Prim2SF_inj. rewrite !abs_spec, opp_spec.
  destruct (Prim2SF a); reflexivity.
Qed.

Lemma Prim2SF_zero : Prim2SF 0 = S754_zero false.
Proof. reflexivity. Qed.

Lemma opp_ltb_zero (a : float) : (- a <? 0) = (0 <? a).
Proof.
  rewrite !ltb_spec, opp_spec, Prim2SF_zero.
  destruct (Prim2SF a) as [s|s| |s m e]; try destruct s; reflexivity.
Qed.

Lemma ltb_zero_opp (a : float) : (0 <? - a) = (a <? 0).
Proof.
  rewrite !ltb_spec, opp_spec, Prim2SF_zero.
  destruct (Prim2SF a) as [s|s| |s m e]; try destruct s; reflexivity.
Qed.

Lemma ltb_zero_asym (a : float) : (a <? 0) = true -> (0 <? a) = false.
Proof.
  rewrite !ltb_spec, Prim2SF_zero.
  destruct (Prim2SF a) as [s|s| |s m e]; try destruct s; cbn; congruence.
Qed.

End FloatFacts.

Section ErfDouble.
Local Open Scope float_scope.

(** At [0] (and at [-0]) the code returns [1 - (a1 + ... + a5)], about
    [1e-9], so the symmetry fails there. *)
Lemma erf_not_odd_at_zero :
  PrimFloat.eqb (erf 0) 0 = false /\
  PrimFloat.eqb (erf (- 0)) (- erf 0) = false /\
  erf (- 0) = erf 0.
Proof. vm_compute. repeat split. Qed.

(** The same value whatever [Math.exp] approximates, once [exp(-0) = 1]. *)
Lemma erf_zero_any_Math (M : Binary64.MathImpl) :
  Binary64.m_exp M (-0) = 1 ->
  erf (N := JSNumber M) 0 = 0x1.12e0be0000000p-30 /\
  erf (N := JSNumber M) (-0) = 0x1.12e0be0000000p-30.
Proof.
  intros Hexp. unfold erf.
  cbn [lit add sub mul div neg lt Math_abs Math_exp JSNumber].
  change (abs (-0)) with 0. change (abs 0) with 0.
  change (- 0 * 0) with (-0). rewrite Hexp.
  split; reflexivity.
Qed.

End ErfDouble.

(** C9, amended: [erf (-x) = - erf x] for every [x] other than [0], in exact
    arithmetic and on doubles (whatever [Math.exp] returns). *)
Theorem erf_odd_nonzero :
  (forall x : R, x <> 0%R -> erf (- x)%R = (- erf x)%R) /\
  (forall (M : Binary64.MathImpl) (x : float),
      ((x <? 0) || (0 <? x))%float = true ->
      erf (N := JSNumber M) (- x)%float = (- erf (N := JSNumber M) x)%float).
Proof.
  split.
  - intros x Hx. rewrite !erf_real, Rabs_Ropp.
    destruct (Rlt_dec x 0), (Rlt_dec (- x) 0); lra.
  - intros M x Hx. unfold erf.
    cbn [lit add sub mul div neg lt Math_abs Math_exp JSNumber].
    change (Binary64.of_Q 0) with 0%float.
    rewrite abs_opp, opp_ltb_zero.
    match goal with |- (_ * ?t)%float = _ => set (y := t) end.
    change (Binary64.of_Q (-1)) with (- Binary64.of_Q 1)%float.
    destruct (x <? 0)%float eqn:E.
    + rewrite (ltb_zero_asym E), mul_opp_l, opp_involutive. reflexivity.
    + cbn in Hx. rewrite Hx, mul_opp_l. reflexivity.
Qed.

Lemma erf_odd_nonzero_witness :
  erf (N := JS) (- 1)%float = (- erf (N := JS) 1)%float.
Proof. apply (proj2 erf_odd_nonzero Binary64.Math_ref 1%float). reflexivity. Defined.

(** ** Degenerate and out-of-domain inputs *)

Section AnyArithmetic.
Context {T : Type} {N : Number T}.
Local Open Scope js_scope.

(** C5: with [upper <= lower] the Uniform density is [0] at every [x]; the
    function is total, no input makes it fail.  The statement holds in every
    arithmetic, the test [upper <= lower] being the one the code performs. *)
Theorem Uniform_degenerate_pdf_zero (x lower upper : T) :
  (upper <=? lower) = true -> pdf Uniform x [lower; upper] = #0.
Proof. intros E. cbn. rewrite E. reflexivity. Qed.

(** A discrete family reads [x] through [Math.round] only: the mass function
    takes the same value at any two points with the same rounding. *)
Lemma discrete_pdf_same_round (d : Distribution T) (x x' : T) (ps : list T) :
  In d DISTRIBUTIONS -> kind d = discrete ->
  Math_round x = Math_round x' -> pdf d x ps = pdf d x' ps.
Proof.
  intros Hd Hk Hr. unfold DISTRIBUTIONS in Hd. cbn [In] in Hd.
  repeat (destruct Hd as [<- | Hd]; [try discriminate Hk; cbn; rewrite Hr; reflexivity|]).
  contradiction.
Qed.

End AnyArithmetic.

Lemma Uniform_degenerate_pdf_zero_witness :
  pdf (Uniform (N := JS)) 0.5%float [1%float; 0%float] = 0%float.
Proof. apply (@Uniform_degenerate_pdf_zero float JS). reflexivity. Defined.

(** [Math.round] of an integer is that integer. *)
Lemma round_idempotent_real (x : R) :
  Math_round (Math_round x) = Math_round x.
Proof.
  real_lits. f_equal. unfold Exact.round at 1.
  apply Int_part_unique. lra.
Qed.

(** ** The binomial coefficient *)

Section BinomialCoefficient.
Local Open Scope R_scope.

Lemma binomCoeff_symmetric_real (n k : R) :
  0 <= k <= n -> binomCoeff n k = binomCoeff n (n - k).
Proof.
  intros [H0 Hn]. unfold binomCoeff. real_lits.
  repeat match goal with
  | |- context [Exact.ltb ?a ?b] => destruct (Exact.ltb a b) eqn:?
  | |- context [Exact.eqb ?a ?b] => destruct (Exact.eqb a b) eqn:?
  end; cbn [orb]; real_tests; try reflexivity; try lra.
  replace (n - (n - k)) with k by ring.
  rewrite (Rmin_comm (n - k) k). reflexivity.
Qed.

End BinomialCoefficient.

(** ** Integers as doubles *)

Section IntegersAsDoubles.
Local Open Scope Z_scope.

Lemma digits2_pos_iter_xO (p k : positive) :
  digits2_pos (Pos.iter xO p k) = (digits2_pos p + k)%positive.
Proof.
  induction k using Pos.peano_ind.
  - cbn. lia.
  - rewrite Pos.iter_succ. cbn. rewrite IHk. lia.
Qed.

Lemma Zpos_iter_xO (p k : positive) :
  Zpos (Pos.iter xO p k) = Zpos p * 2 ^ Zpos k.
Proof.
  induction k using Pos.peano_ind.
  - cbn. lia.
  - rewrite Pos.iter_succ, Pos2Z.inj_succ, Z.pow_succ_r by lia.
    rewrite Pos2Z.inj_xO, IHk. lia.
Qed.

Lemma fexp_small (z : Z) : -1021 <= z -> fexp prec emax z = z - 53.
Proof. intros. unfold fexp, SpecFloat.emin, prec, emax. lia. Qed.

Lemma binary_round_aux_exact (s : bool) (m : positive) (e : Z) :
  Zpos (digits2_pos m) = 53 -> -1074 <= e <= 971 ->
  binary_round_aux prec emax s (Zpos m) e loc_Exact = S754_finite s m e.
Proof.
  intros Hd He.
  assert (Hs : shr_fexp prec emax (Zpos m) e loc_Exact =
               ({| shr_m := Zpos m; shr_r := false; shr_s := false |}, e)).
  { unfold shr_fexp. cbn [Zdigits2]. rewrite Hd, fexp_small by lia.
    replace (53 + e - 53 - e) with 0 by lia. reflexivity. }
  unfold binary_round_aux. rewrite Hs. cbn [shr_m loc_of_shr_record round_nearest_even].
  rewrite Hs. cbn [shr_m].
  replace (e <=? emax - prec) with true; [reflexivity|].
  symmetry. apply Z.leb_le. unfold emax, prec. lia.
Qed.

Lemma digits2_pos_bounds (p : positive) :
  2 ^ (Zpos (digits2_pos p) - 1) <= Zpos p < 2 ^ Zpos (digits2_pos p).
Proof.
  induction p as [p IH|p IH|]; cbn [digits2_pos].
  - rewrite Pos2Z.inj_succ, Z.pow_succ_r by lia.
    replace (Z.succ (Zpos (digits2_pos p)) - 1) with (Z.succ (Zpos (digits2_pos p) - 1)) by lia.
    rewrite Z.pow_succ_r by lia. lia.
  - rewrite Pos2Z.inj_succ, Z.pow_succ_r by lia.
    replace (Z.succ (Zpos (digits2_pos p)) - 1) with (Z.succ (Zpos (digits2_pos p) - 1)) by lia.
    rewrite Z.pow_succ_r by lia. lia.
  - cbn. lia.
Qed.

Lemma digits2_pos_le (p : positive) (d : Z) :
  0 <= d -> Zpos p < 2 ^ d -> Zpos (digits2_pos p) <= d.
Proof.
  intros Hd Hp. destruct (digits2_pos_bounds p) as [Hlo _].
  destruct (Z_le_gt_dec (Zpos (digits2_pos p)) d) as [|Hgt]; [assumption|].
  assert (2 ^ d <= 2 ^ (Zpos (digits2_pos p) - 1)) by (apply Z.pow_le_mono_r; lia).
  lia.
Qed.

Lemma valid_binary_finite (s : bool) (m : positive) (e : Z) :
  valid_binary (S754_finite s m e) = true ->
  Zpos (digits2_pos m) <= 53 /\ -1074 <= e <= 971.
Proof.
  unfold SpecFloat.valid_binary, SpecFloat.bounded, canonical_mantissa.
  intros H. apply andb_true_iff in H. destruct H as [H1 H2].
  apply Z.eqb_eq in H1. apply Z.leb_le in H2.
  unfold fexp, SpecFloat.emin in H1. unfold prec, emax in *. lia.
Qed.

Lemma valid_binary_normal (s : bool) (m : positive) (e : Z) :
  Zpos (digits2_pos m) = 53 -> -1021 <= e <= 971 ->
  valid_binary (S754_finite s m e) = true.
Proof.
  intros Hd He. change (SpecFloat.bounded prec emax m e = true).
  unfold SpecFloat.bounded, canonical_mantissa. rewrite Hd, fexp_small by lia.
  apply andb_true_iff. split; [apply Z.eqb_eq; lia | apply Z.leb_le; unfold emax, prec; lia].
Qed.

(** *** Rounding an integer to a double *)

Lemma shr_1_even (z : Z) :
  0 < z ->
  shr_1 {| shr_m := 2 * z; shr_r := false; shr_s := false |} =
  {| shr_m := z; shr_r := false; shr_s := false |}.
Proof. destruct z as [|p|p]; intros Hz; try lia. reflexivity. Qed.

Lemma pow2_double (n : positive) : 2 ^ Zpos n~0 = 2 ^ Zpos n * 2 ^ Zpos n.
Proof.
  replace (Zpos n~0) with (Zpos n + Zpos n) by lia.
  apply Z.pow_add_r; lia.
Qed.

Lemma pow2_double_succ (n : positive) : 2 ^ Zpos n~1 = 2 * (2 ^ Zpos n * 2 ^ Zpos n).
Proof.
  replace (Zpos n~1) with (Z.succ (Zpos n~0)) by lia.
  rewrite Z.pow_succ_r by lia. rewrite pow2_double. reflexivity.
Qed.

(** Shifting out [n] zero bits loses nothing. *)
Lemma iter_shr_1_exact (n : positive) :
  forall z : Z, 0 < z ->
  SpecFloat.iter_pos shr_1 n {| shr_m := z * 2 ^ Zpos n; shr_r := false; shr_s := false |} =
  {| shr_m := z; shr_r := false; shr_s := false |}.
Proof.
  induction n as [n IH|n IH|]; intros z Hz; cbn [SpecFloat.iter_pos].
  - assert (0 < 2 ^ Zpos n) by (apply Z.pow_pos_nonneg; lia).
    replace (z * 2 ^ Zpos n~1) with (2 * ((z * 2 ^ Zpos n) * 2 ^ Zpos n))
      by (rewrite pow2_double_succ; ring).
    rewrite shr_1_even by nia. rewrite IH by nia. apply IH. exact Hz.
  - assert (0 < 2 ^ Zpos n) by (apply Z.pow_pos_nonneg; lia).
    replace (z * 2 ^ Zpos n~0) with ((z * 2 ^ Zpos n) * 2 ^ Zpos n)
      by (rewrite pow2_double; ring).
    rewrite IH by nia. apply IH. exact Hz.
  - replace (z * 2 ^ 1) with (2 * z) by (change (2 ^ 1) with 2; ring).
    apply shr_1_even. exact Hz.
Qed.

(** A 53-bit mantissa followed by [j] zero bits rounds to itself. *)
Lemma binary_round_aux_shifted (s : bool) (p D : positive) (j e : Z) :
  Zpos (digits2_pos p) = 53 -> 0 <= j -> Zpos D = Zpos p * 2 ^ j ->
  -1074 <= e + j <= 971 ->
  binary_round_aux prec emax s (Zpos D) e loc_Exact = S754_finite s p (e + j).
Proof.
  intros Hd Hj HD He.
  destruct j as [|k|k]; try lia.
  - rewrite Z.pow_0_r, Z.mul_1_r in HD. injection HD as ->.
    rewrite Z.add_0_r in *. apply binary_round_aux_exact; assumption.
  - assert (HDd : Zpos (digits2_pos D) = 53 + Zpos k).
    { rewrite <- Zpos_iter_xO in HD. injection HD as ->.
      rewrite digits2_pos_iter_xO. lia. }
    assert (Hs : shr_fexp prec emax (Zpos D) e loc_Exact =
                 ({| shr_m := Zpos p; shr_r := false; shr_s := false |}, e + Zpos k)).
    { unfold shr_fexp. cbn [Zdigits2]. rewrite HDd, fexp_small by lia.
      replace (53 + Zpos k + e - 53 - e) with (Zpos k) by lia.
      cbn [shr shr_record_of_loc]. rewrite HD, iter_shr_1_exact by lia. reflexivity. }
    unfold binary_round_aux. rewrite Hs. cbn [shr_m loc_of_shr_record round_nearest_even].
    assert (Hs' : shr_fexp prec emax (Zpos p) (e + Zpos k) loc_Exact =
                 ({| shr_m := Zpos p; shr_r := false; shr_s := false |}, e + Zpos k)).
    { unfold shr_fexp. cbn [Zdigits2]. rewrite Hd, fexp_small by lia.
      replace (53 + (e + Zpos k) - 53 - (e + Zpos k)) with 0 by lia. reflexivity. }
    rewrite Hs'. cbn [shr_m].
    replace (e + Zpos k <=? emax - prec) with true; [reflexivity|].
    symmetry. apply Z.leb_le. unfold emax, prec. lia.
Qed.

(** The double of a positive integer of at most 53 bits. *)
Lemma binary_round_Z (s : bool) (q : positive) :
  Zpos (digits2_pos q) <= 53 ->
  exists p, binary_round prec emax s q 0 = S754_finite s p (Zpos (digits2_pos q) - 53) /\
            Zpos p = Zpos q * 2 ^ (53 - Zpos (digits2_pos q)) /\
            Zpos (digits2_pos p) = 53.
Proof.
  intros Hd. unfold binary_round.
  rewrite Z.add_0_r, fexp_small by lia.
  unfold shl_align. rewrite Z.sub_0_r.
  pose proof (Pos2Z.is_pos (digits2_pos q)).
  destruct (Zpos (digits2_pos q) - 53) as [|k|k] eqn:E; try lia.
  - exists q. rewrite binary_round_aux_exact by lia.
    replace (53 - Zpos (digits2_pos q)) with 0 by lia.
    repeat split; lia.
  - exists (Pos.iter xO q k).
    assert (Zpos (digits2_pos (Pos.iter xO q k)) = 53).
    { rewrite digits2_pos_iter_xO. lia. }
    rewrite binary_round_aux_exact by lia.
    repeat split; try lia. rewrite Zpos_iter_xO. f_equal. f_equal. lia.
Qed.

Lemma digits2_pos_shift (q D : positive) (j : Z) :
  0 <= j -> Zpos D = Zpos q * 2 ^ j ->
  Zpos (digits2_pos D) = Zpos (digits2_pos q) + j.
Proof.
  intros Hj HD. destruct j as [|k|k]; try lia.
  - rewrite Z.pow_0_r, Z.mul_1_r in HD. injection HD as ->. lia.
  - rewrite <- Zpos_iter_xO in HD. injection HD as ->.
    rewrite digits2_pos_iter_xO. lia.
Qed.

(** Rounding depends on the value only: [q * 2^j] at exponent [-j] is the
    double of [q]. *)
Lemma binary_round_shifted (s : bool) (q D : positive) (j : Z) :
  Zpos (digits2_pos q) <= 53 -> 0 <= j <= 900 -> Zpos D = Zpos q * 2 ^ j ->
  binary_round prec emax s D (- j) = binary_round prec emax s q 0.
Proof.
  intros Hd Hj HD.
  destruct (@binary_round_Z s q Hd) as (p & -> & Hp & Hpd).
  pose proof (Pos2Z.is_pos (digits2_pos q)) as Hq.
  set (e := Zpos (digits2_pos q) - 53) in *.
  unfold binary_round.
  rewrite (@digits2_pos_shift q D j) by (lia || assumption).
  replace (Zpos (digits2_pos q) + j + - j) with (Zpos (digits2_pos q)) by lia.
  rewrite fexp_small by lia. fold e.
  unfold shl_align.
  destruct (e - - j) as [|k|k] eqn:E.
  - (* no shift: [D] is the mantissa *)
    rewrite binary_round_aux_shifted with (p := p) (j := 0); try lia.
    + f_equal. lia.
    + rewrite Z.pow_0_r, Z.mul_1_r, HD, Hp. f_equal. f_equal. lia.
  - rewrite binary_round_aux_shifted with (p := p) (j := Zpos k); try lia.
    + f_equal. lia.
    + rewrite HD, Hp, <- Z.mul_assoc, <- Z.pow_add_r by lia. f_equal. f_equal. lia.
  - assert (Pos.iter xO D k = p) as ->.
    { apply Pos2Z.inj. rewrite Zpos_iter_xO, HD, Hp, <- Z.mul_assoc, <- Z.pow_add_r by lia.
      f_equal. f_equal. lia. }
    apply binary_round_aux_exact; [assumption | unfold e; lia].
Qed.

Lemma Zfloat_zero : Zfloat 0 = S754_zero false.
Proof. reflexivity. Qed.

(** The double of a nonzero integer below [2^53] in magnitude. *)
Lemma Zfloat_nonzero (n : Z) :
  n <> 0 -> Z.abs n < 2 ^ 53 ->
  exists p, Zfloat n = S754_finite (n <? 0) p (Zdigits2 n - 53) /\
            Zpos p = Z.abs n * 2 ^ (53 - Zdigits2 n) /\
            Zpos (digits2_pos p) = 53 /\ 1 <= Zdigits2 n <= 53.
Proof.
  intros Hn Hb. unfold Zfloat.
  destruct n as [|q|q]; [congruence| |]; cbn [binary_normalize Z.abs Zdigits2 Z.ltb Z.compare] in *.
  - assert (Hd : Zpos (digits2_pos q) <= 53) by (apply digits2_pos_le; lia).
    destruct (@binary_round_Z false q Hd) as (p & E & Hp & Hpd).
    exists p. pose proof (Pos2Z.is_pos (digits2_pos q)). repeat split; auto; lia.
  - assert (Hd : Zpos (digits2_pos q) <= 53) by (apply digits2_pos_le; lia).
    destruct (@binary_round_Z true q Hd) as (p & E & Hp & Hpd).
    exists p. pose proof (Pos2Z.is_pos (digits2_pos q)). repeat split; auto; lia.
Qed.

Lemma Zfloat_valid (n : Z) : Z.abs n < 2 ^ 53 -> valid_binary (Zfloat n) = true.
Proof.
  intros Hb. destruct (Z.eq_dec n 0) as [->|Hn]; [reflexivity|].
  destruct (Zfloat_nonzero Hn Hb) as (p & -> & _ & Hd & Hr).
  apply valid_binary_normal; [assumption | lia].
Qed.

Lemma Prim2SF_of_Z_exact (n : Z) :
  Z.abs n < 2 ^ 53 -> Prim2SF (Binary64.of_Z n) = Zfloat n.
Proof. intros Hb. unfold Binary64.of_Z. apply Prim2SF_SF2Prim, Zfloat_valid, Hb. Qed.

Lemma binary_normalize_shifted (z j : Z) :
  Z.abs z < 2 ^ 53 -> 0 <= j <= 900 ->
  binary_normalize prec emax (z * 2 ^ j) (- j) false = Zfloat z.
Proof.
  intros Hb Hj. assert (0 < 2 ^ j) by (apply Z.pow_pos_nonneg; lia).
  unfold Zfloat. destruct z as [|q|q].
  - reflexivity.
  - destruct (Zpos q * 2 ^ j) as [|D|D] eqn:E; try nia.
    cbn [binary_normalize]. apply binary_round_shifted; try lia.
    apply digits2_pos_le; cbn [Z.abs] in Hb; lia.
  - destruct (Zneg q * 2 ^ j) as [|D|D] eqn:E; try nia.
    cbn [binary_normalize]. apply binary_round_shifted; try lia.
    apply digits2_pos_le; cbn [Z.abs] in Hb; lia.
Qed.

Lemma shl_align_value (m : positive) (e e' : Z) :
  e' <= e -> Zpos (fst (shl_align m e e')) = Zpos m * 2 ^ (e - e').
Proof.
  intros He. unfold shl_align.
  destruct (e' - e) as [|k|k] eqn:E; try lia; cbn [fst].
  - replace (e - e') with 0 by lia. lia.
  - rewrite Zpos_iter_xO. f_equal. f_equal. lia.
Qed.

Lemma cond_Zopp_abs (n : Z) : cond_Zopp (n <? 0) (Z.abs n) = n.
Proof.
  unfold cond_Zopp. destruct (n <? 0) eqn:E.
  - apply Z.ltb_lt in E. lia.
  - apply Z.ltb_ge in E. lia.
Qed.

Lemma cond_Zopp_mul (s : bool) (a b : Z) : cond_Zopp s (a * b) = cond_Zopp s a * b.
Proof. destruct s; cbn [cond_Zopp]; ring. Qed.

(** The aligned mantissa of the double of [n] at a lower exponent [ez]. *)
Lemma aligned_mantissa (n : Z) (p : positive) (ez : Z) :
  Zpos p = Z.abs n * 2 ^ (53 - Zdigits2 n) -> 1 <= Zdigits2 n <= 53 ->
  ez <= Zdigits2 n - 53 -> -52 <= ez ->
  cond_Zopp (n <? 0) (Zpos (fst (shl_align p (Zdigits2 n - 53) ez))) = n * 2 ^ (- ez).
Proof.
  intros Hp Hd He He'. rewrite shl_align_value by lia.
  rewrite Hp, <- Z.mul_assoc, <- Z.pow_add_r by lia.
  rewrite cond_Zopp_mul, cond_Zopp_abs. f_equal. f_equal. lia.
Qed.

(** Addition of integers is exact on doubles. *)
Lemma SFadd_Zfloat (a b : Z) :
  Z.abs a < 2 ^ 53 -> Z.abs b < 2 ^ 53 -> Z.abs (a + b) < 2 ^ 53 ->
  SFadd prec emax (Zfloat a) (Zfloat b) = Zfloat (a + b).
Proof.
  intros Ha Hb Hab.
  destruct (Z.eq_dec a 0) as [->|Na]; [|destruct (Z.eq_dec b 0) as [->|Nb]].
  - rewrite Zfloat_zero, Z.add_0_l.
    destruct (Z.eq_dec b 0) as [->|Nb]; [reflexivity|].
    destruct (Zfloat_nonzero Nb Hb) as (p & -> & _). reflexivity.
  - rewrite Zfloat_zero, Z.add_0_r.
    destruct (Zfloat_nonzero Na Ha) as (p & -> & _). reflexivity.
  - destruct (Zfloat_nonzero Na Ha) as (pa & -> & Hpa & _ & Hda).
    destruct (Zfloat_nonzero Nb Hb) as (pb & -> & Hpb & _ & Hdb).
    cbn [SFadd].
    set (ez := Z.min (Zdigits2 a - 53) (Zdigits2 b - 53)).
    rewrite (@aligned_mantissa a pa ez), (@aligned_mantissa b pb ez) by (assumption || lia).
    rewrite <- Z.mul_add_distr_r.
    rewrite <- (Z.opp_involutive ez) at 2.
    apply binary_normalize_shifted; lia.
Qed.

Lemma SFsub_as_add (x y : spec_float) :
  SFsub prec emax x y = SFadd prec emax x (SFopp y).
Proof.
  destruct x as [sx|sx| |sx mx ex], y as [sy|sy| |sy my ey]; cbn;
    try reflexivity; destruct sx, sy; reflexivity.
Qed.

Lemma SFopp_Zfloat (b : Z) : b <> 0 -> SFopp (Zfloat b) = Zfloat (- b).
Proof.
  intros Nb. unfold Zfloat.
  destruct b as [|q|q]; [congruence| |]; cbn [binary_normalize Z.opp];
    unfold binary_round;
    destruct (shl_align q 0 _) as [mz ez];
    rewrite <- binary_round_aux_opp; reflexivity.
Qed.

(** Subtraction of integers is exact on doubles. *)
Lemma SFsub_Zfloat (a b : Z) :
  Z.abs a < 2 ^ 53 -> Z.abs b < 2 ^ 53 -> Z.abs (a - b) < 2 ^ 53 ->
  SFsub prec emax (Zfloat a) (Zfloat b) = Zfloat (a - b).
Proof.
  intros Ha Hb Hab. rewrite SFsub_as_add.
  destruct (Z.eq_dec b 0) as [->|Nb].
  - rewrite Zfloat_zero, Z.sub_0_r. cbn [SFopp negb].
    destruct (Z.eq_dec a 0) as [->|Na]; [reflexivity|].
    destruct (Zfloat_nonzero Na Ha) as (p & -> & _). reflexivity.
  - rewrite SFopp_Zfloat by assumption.
    replace (a - b) with (a + - b) in * by lia.
    apply SFadd_Zfloat; lia.
Qed.

Lemma Zdigits2_bounds (z : Z) :
  0 < z -> 2 ^ (Zdigits2 z - 1) <= z < 2 ^ Zdigits2 z.
Proof.
  destruct z as [|q|q]; intros Hz; try lia. cbn [Zdigits2]. apply digits2_pos_bounds.
Qed.

Lemma Zcompare_scale (x y k : Z) : 0 < k -> (x * k ?= y * k) = (x ?= y).
Proof.
  intros Hk. destruct (Z.compare_spec x y) as [->|H|H].
  - apply Z.compare_refl.
  - apply Z.compare_lt_iff. nia.
  - apply Z.compare_gt_iff. nia.
Qed.

(** Canonical mantissas and exponents of two positive integers compare as
    the integers do. *)
Lemma compare_canonical (x y : Z) (px py : positive) :
  0 < x -> 0 < y ->
  Zpos px = x * 2 ^ (53 - Zdigits2 x) -> Zpos py = y * 2 ^ (53 - Zdigits2 y) ->
  Zdigits2 x <= 53 -> Zdigits2 y <= 53 ->
  match Zdigits2 x - 53 ?= Zdigits2 y - 53 with
  | Lt => Lt
  | Gt => Gt
  | Eq => Pos.compare_cont Eq px py
  end = (x ?= y).
Proof.
  intros Hx Hy Hpx Hpy Hdx Hdy.
  destruct (Zdigits2_bounds Hx) as [Lx Ux], (Zdigits2_bounds Hy) as [Ly Uy].
  destruct (Z.compare_spec (Zdigits2 x - 53) (Zdigits2 y - 53)) as [E|E|E].
  - assert (Ed : Zdigits2 x = Zdigits2 y) by lia.
    change (Pos.compare_cont Eq px py) with (Zpos px ?= Zpos py).
    rewrite Hpx, Hpy, Ed.
    apply Zcompare_scale. apply Z.pow_pos_nonneg; lia.
  - symmetry. apply Z.compare_lt_iff.
    assert (2 ^ Zdigits2 x <= 2 ^ (Zdigits2 y - 1)) by (apply Z.pow_le_mono_r; lia).
    lia.
  - symmetry. apply Z.compare_gt_iff.
    assert (2 ^ Zdigits2 y <= 2 ^ (Zdigits2 x - 1)) by (apply Z.pow_le_mono_r; lia).
    lia.
Qed.

Lemma Zdigits2_abs (n : Z) : Zdigits2 (Z.abs n) = Zdigits2 n.
Proof. destruct n; reflexivity. Qed.

(** Doubles of integers compare as the integers do. *)
Lemma SFcompare_Zfloat (a b : Z) :
  Z.abs a < 2 ^ 53 -> Z.abs b < 2 ^ 53 ->
  SFcompare (Zfloat a) (Zfloat b) = Some (a ?= b).
Proof.
  intros Ha Hb.
  destruct (Z.eq_dec a 0) as [->|Na]; [|destruct (Z.eq_dec b 0) as [->|Nb]].
  - destruct (Z.eq_dec b 0) as [->|Nb]; [reflexivity|].
    destruct (Zfloat_nonzero Nb Hb) as (p & -> & _). rewrite Zfloat_zero.
    cbn [SFcompare]. f_equal. destruct (b <? 0) eqn:E.
    + apply Z.ltb_lt in E. symmetry. apply Z.compare_gt_iff. lia.
    + apply Z.ltb_ge in E. symmetry. apply Z.compare_lt_iff. lia.
  - destruct (Zfloat_nonzero Na Ha) as (p & -> & _). rewrite Zfloat_zero.
    cbn [SFcompare]. f_equal. destruct (a <? 0) eqn:E.
    + apply Z.ltb_lt in E. symmetry. apply Z.compare_lt_iff. lia.
    + apply Z.ltb_ge in E. symmetry. apply Z.compare_gt_iff. lia.
  - destruct (Zfloat_nonzero Na Ha) as (pa & -> & Hpa & _ & Hda).
    destruct (Zfloat_nonzero Nb Hb) as (pb & -> & Hpb & _ & Hdb).
    cbn [SFcompare]. f_equal.
    rewrite <- (Zdigits2_abs a) in *. rewrite <- (Zdigits2_abs b) in *.
    destruct (a <? 0) eqn:Ea, (b <? 0) eqn:Eb;
      try apply Z.ltb_lt in Ea; try apply Z.ltb_ge in Ea;
      try apply Z.ltb_lt in Eb; try apply Z.ltb_ge in Eb.
    + assert (C := @compare_canonical (Z.abs a) (Z.abs b) pa pb).
      replace (a ?= b) with (CompOpp (Z.abs a ?= Z.abs b)).
      2:{ rewrite <- Z.compare_antisym, !Z.abs_neq by lia. apply Z.compare_opp. }
      rewrite <- C by lia.
      destruct (Zdigits2 (Z.abs a) - 53 ?= Zdigits2 (Z.abs b) - 53); reflexivity.
    + symmetry. apply Z.compare_lt_iff. lia.
    + symmetry. apply Z.compare_gt_iff. lia.
    + replace (a ?= b) with (Z.abs a ?= Z.abs b)
        by (rewrite !Z.abs_eq by lia; reflexivity).
      apply compare_canonical; lia.
Qed.

(** *** [Math.round] is idempotent *)

Lemma Prim2SF_signed_zero s : Prim2SF (Binary64.signed_zero s) = S754_zero s.
Proof. destruct s; reflexivity. Qed.

(** [floor(n + 1/2) = n], on the mantissa and exponent of the double of [n]. *)
Lemma round_shift_exact (n k : Z) :
  0 < k -> Z.shiftl (2 * (n * 2 ^ k) + Z.shiftl 1 k) (- k - 1) = n.
Proof.
  intros Hk. rewrite Z.shiftl_1_l.
  replace (- k - 1) with (- (k + 1)) by lia.
  rewrite Z.shiftl_opp_r, Z.shiftr_div_pow2 by lia.
  rewrite Z.pow_add_r by lia.
  replace (2 * (n * 2 ^ k) + 2 ^ k) with ((2 * n + 1) * 2 ^ k) by ring.
  rewrite (Z.mul_comm (2 ^ k) (2 ^ 1)).
  assert (0 < 2 ^ k) by (apply Z.pow_pos_nonneg; lia).
  rewrite Z.div_mul_cancel_r by lia. change (2 ^ 1) with 2.
  symmetry. apply Z.div_unique with 1; lia.
Qed.

Lemma round_of_Z (n : Z) :
  n <> 0 -> Z.abs n < 2 ^ 53 -> Binary64.round (Binary64.of_Z n) = Binary64.of_Z n.
Proof.
  intros Hn Hb. destruct (Zfloat_nonzero Hn Hb) as (m & E & Hm & _ & Hd).
  unfold Binary64.round. rewrite Prim2SF_of_Z_exact, E by assumption.
  set (e := Zdigits2 n - 53) in *.
  destruct (0 <=? e) eqn:E0; [reflexivity|].
  apply Z.leb_gt in E0.
  replace (cond_Zopp (n <? 0) (Zpos m)) with (n * 2 ^ (- e)).
  2:{ rewrite Hm, cond_Zopp_mul, cond_Zopp_abs. f_equal. f_equal. unfold e. lia. }
  replace (e - 1) with (- (- e) - 1) by lia.
  rewrite round_shift_exact by lia.
  unfold Binary64.of_Z_signed. destruct (n =? 0) eqn:En; [|reflexivity].
  apply Z.eqb_eq in En. congruence.
Qed.

Lemma round_magnitude (s : bool) (m : positive) (k : Z) :
  0 < k -> Zpos m < 2 ^ 53 ->
  Z.abs (Z.shiftl (2 * cond_Zopp s (Zpos m) + Z.shiftl 1 k) (- k - 1)) < 2 ^ 53.
Proof.
  intros Hk Hm. rewrite Z.shiftl_1_l.
  replace (- k - 1) with (- (k + 1)) by lia.
  rewrite Z.shiftl_opp_r, Z.shiftr_div_pow2 by lia.
  rewrite Z.pow_add_r by lia. change (2 ^ 1) with 2.
  assert (HP : 2 <= 2 ^ k).
  { change 2 with (2 ^ 1) at 1. apply Z.pow_le_mono_r; lia. }
  set (P := 2 ^ k) in *.
  assert (Hlo : - 2 ^ 53 < (2 * cond_Zopp s (Zpos m) + P) / (P * 2)).
  { apply Z.lt_le_trans with (- 2 ^ 53 + 1); [lia|].
    apply Z.div_le_lower_bound; [lia|]. destruct s; cbn [cond_Zopp]; nia. }
  assert (Hhi : (2 * cond_Zopp s (Zpos m) + P) / (P * 2) < 2 ^ 53).
  { apply Z.div_lt_upper_bound; [lia|]. destruct s; cbn [cond_Zopp]; nia. }
  lia.
Qed.

Lemma round_cases (x : float) :
  Binary64.round x = x \/
  (exists s, Binary64.round x = Binary64.signed_zero s) \/
  (exists n, n <> 0 /\ Z.abs n < 2 ^ 53 /\ Binary64.round x = Binary64.of_Z n).
Proof.
  unfold Binary64.round.
  destruct (Prim2SF x) as [s|s| |s m e] eqn:E; auto.
  destruct (0 <=? e) eqn:E0; auto.
  apply Z.leb_gt in E0.
  pose proof (Prim2SF_valid x) as V. rewrite E in V.
  apply valid_binary_finite in V. destruct V as [Vd Ve].
  assert (Hm : Zpos m < 2 ^ 53).
  { destruct (digits2_pos_bounds m) as [_ Hu].
    apply Z.lt_le_trans with (1 := Hu). apply Z.pow_le_mono_r; lia. }
  pose proof (@round_magnitude s m (- e) ltac:(lia) Hm) as Hb.
  replace (- - e - 1) with (e - 1) in Hb by lia.
  set (n := Z.shiftl _ (e - 1)) in *.
  right. unfold Binary64.of_Z_signed. destruct (n =? 0) eqn:En.
  - left. exists s. reflexivity.
  - right. exists n. apply Z.eqb_neq in En. auto.
Qed.

Lemma round_idempotent_double (x : float) :
  Binary64.round (Binary64.round x) = Binary64.round x.
Proof.
  destruct (round_cases x) as [E | [[s E] | (n & Hn & Hb & E)]]; rewrite E.
  - exact E.
  - destruct s; reflexivity.
  - apply round_of_Z; assumption.
Qed.

End IntegersAsDoubles.

(** Integer arithmetic below [2^53] is exact on doubles. *)

Section ExactIntegers.
Local Open Scope float_scope.

Lemma of_Z_add (a b : Z) :
  (Z.abs a < 2 ^ 53)%Z -> (Z.abs b < 2 ^ 53)%Z -> (Z.abs (a + b) < 2 ^ 53)%Z ->
  Binary64.of_Z a + Binary64.of_Z b = Binary64.of_Z (a + b).
Proof.
  intros Ha Hb Hab. apply Prim2SF_inj.
  rewrite FloatAxioms.add_spec, !Prim2SF_of_Z_exact by assumption.
  apply SFadd_Zfloat; assumption.
Qed.

Lemma of_Z_sub (a b : Z) :
  (Z.abs a < 2 ^ 53)%Z -> (Z.abs b < 2 ^ 53)%Z -> (Z.abs (a - b) < 2 ^ 53)%Z ->
  Binary64.of_Z a - Binary64.of_Z b = Binary64.of_Z (a - b).
Proof.
  intros Ha Hb Hab. apply Prim2SF_inj.
  rewrite FloatAxioms.sub_spec, !Prim2SF_of_Z_exact by assumption.
  apply SFsub_Zfloat; assumption.
Qed.

Lemma of_Z_ltb (a b : Z) :
  (Z.abs a < 2 ^ 53)%Z -> (Z.abs b < 2 ^ 53)%Z ->
  (Binary64.of_Z a <? Binary64.of_Z b) = (a <? b)%Z.
Proof.
  intros Ha Hb. rewrite FloatAxioms.ltb_spec, !Prim2SF_of_Z_exact by assumption.
  unfold SFltb. rewrite SFcompare_Zfloat by assumption. reflexivity.
Qed.

Lemma of_Z_leb (a b : Z) :
  (Z.abs a < 2 ^ 53)%Z -> (Z.abs b < 2 ^ 53)%Z ->
  (Binary64.of_Z a <=? Binary64.of_Z b) = (a <=? b)%Z.
Proof.
  intros Ha Hb. rewrite FloatAxioms.leb_spec, !Prim2SF_of_Z_exact by assumption.
  unfold SFleb. rewrite SFcompare_Zfloat by assumption.
  unfold Z.leb. destruct (a ?= b)%Z; reflexivity.
Qed.

Lemma of_Z_eqb (a b : Z) :
  (Z.abs a < 2 ^ 53)%Z -> (Z.abs b < 2 ^ 53)%Z ->
  (Binary64.of_Z a =? Binary64.of_Z b) = (a =? b)%Z.
Proof.
  intros Ha Hb. rewrite FloatAxioms.eqb_spec, !Prim2SF_of_Z_exact by assumption.
  unfold SFeqb. rewrite SFcompare_Zfloat by assumption.
  unfold Z.eqb. destruct (Z.compare_spec a b) as [->|H|H].
  - destruct b; try reflexivity; symmetry; apply Pos.eqb_refl.
  - destruct a, b; try reflexivity; try lia.
    + symmetry. apply Pos.eqb_neq. lia.
    + symmetry. apply Pos.eqb_neq. lia.
  - destruct a, b; try reflexivity; try lia.
    + symmetry. apply Pos.eqb_neq. lia.
    + symmetry. apply Pos.eqb_neq. lia.
Qed.

Lemma of_Z_min (a b : Z) :
  (Z.abs a < 2 ^ 53)%Z -> (Z.abs b < 2 ^ 53)%Z ->
  Binary64.min (Binary64.of_Z a) (Binary64.of_Z b) = Binary64.of_Z (Z.min a b).
Proof.
  intros Ha Hb. unfold Binary64.min, is_nan.
  rewrite !of_Z_eqb, !Z.eqb_refl, !of_Z_ltb by assumption. cbn [negb orb].
  destruct (a <? b)%Z eqn:E1.
  - apply Z.ltb_lt in E1. rewrite Z.min_l by lia. reflexivity.
  - apply Z.ltb_ge in E1. destruct (b <? a)%Z eqn:E2.
    + rewrite Z.min_r by lia. reflexivity.
    + apply Z.ltb_ge in E2. assert (a = b) by lia. subst.
      rewrite Z.min_id. destruct (get_sign (Binary64.of_Z b)); reflexivity.
Qed.

(** An integer literal is the double of the integer. *)
Lemma of_Q_inject_Z (z : Z) :
  (Z.abs z < 2 ^ 53)%Z -> Binary64.of_Q (inject_Z z) = Binary64.of_Z z.
Proof.
  intros Hb. unfold Binary64.of_Q, Binary64.of_Z, inject_Z. cbn [Qnum Qden].
  assert (D : forall (s : bool) (n : positive),
             (Zpos n < 2 ^ 53)%Z ->
             SFdiv prec emax (S754_finite s n 0) (S754_finite false 1 0) =
             binary_round prec emax s n 0).
  { intros s n Hn.
    assert (Hd : (Zpos (digits2_pos n) <= 53)%Z) by (apply digits2_pos_le; lia).
    pose proof (Pos2Z.is_pos (digits2_pos n)) as Hd0.
    destruct (@binary_round_Z s n Hd) as (p & -> & Hp & Hpd).
    cbn [SFdiv]. unfold SFdiv_core_binary. cbn [Zdigits2 digits2_pos].
    replace (Zpos (digits2_pos n) + 0 - (1 + 0))%Z with (Zpos (digits2_pos n) - 1)%Z by lia.
    rewrite fexp_small by lia.
    rewrite Z.min_l by lia.
    replace (0 - 0 - (Zpos (digits2_pos n) - 1 - 53))%Z
      with (54 - Zpos (digits2_pos n))%Z by lia.
    destruct (54 - Zpos (digits2_pos n))%Z as [|k|k] eqn:Ek; try lia.
    rewrite Z.shiftl_mul_pow2 by lia.
    assert (0 < 2 ^ Zpos k)%Z by (apply Z.pow_pos_nonneg; lia).
    destruct (Zpos n * 2 ^ Zpos k)%Z as [|m|m] eqn:Em; try nia.
    change (Z.div_eucl (Zpos m) 1) with (Z.pos_div_eucl m 1).
    pose proof (Z.pos_div_eucl_eq m 1 ltac:(lia)) as Heq.
    pose proof (Z.pos_div_eucl_bound m 1 ltac:(lia)) as Hbd.
    destruct (Z.pos_div_eucl m 1) as [q r]. cbn [fst snd] in *.
    assert (r = 0%Z) by lia. assert (q = Zpos m) by lia. subst q r.
    change (new_location 1 0) with loc_Exact.
    replace (xorb s false) with s by (destruct s; reflexivity).
    rewrite binary_round_aux_shifted with (p := p) (j := 1%Z); try lia.
    - f_equal. lia.
    - rewrite <- Em, Hp, <- Z.mul_assoc. f_equal.
      change 2%Z with (2 ^ 1)%Z at 3. rewrite <- Z.pow_add_r by lia. f_equal. lia. }
  destruct z as [|n|n]; cbn [binary_normalize].
  - reflexivity.
  - rewrite D by (cbn [Z.abs] in Hb; lia). reflexivity.
  - rewrite D by (cbn [Z.abs] in Hb; lia). reflexivity.
Qed.

End ExactIntegers.


(** C7: a discrete family evaluates its mass function at [Math.round x]:
    [pdf x params = pdf (round x) params] for every [x] and every parameter
    vector, in exact arithmetic and on doubles (whatever the approximated
    functions of [Math] return). *)
Theorem discrete_pdf_rounds :
  (forall (d : Distribution R) (x : R) (ps : list R),
      In d DISTRIBUTIONS -> kind d = discrete ->
      pdf d x ps = pdf d (Math_round x) ps) /\
  (forall (M : Binary64.MathImpl) (d : Distribution float) (x : float) (ps : list float),
      In d (DISTRIBUTIONS (N := JSNumber M)) -> kind d = discrete ->
      pdf d x ps = pdf d (Math_round (Number := JSNumber M) x) ps).
Proof.
  split.
  - intros d x ps Hd Hk. apply discrete_pdf_same_round; auto.
    symmetry. apply round_idempotent_real.
  - intros M d x ps Hd Hk. apply (discrete_pdf_same_round (N := JSNumber M)); auto.
    symmetry. apply round_idempotent_double.
Qed.

Lemma discrete_pdf_rounds_witness :
  pdf (Binomial (N := JS)) 4.75%float [10%float; 0.5%float] =
  pdf (Binomial (N := JS)) (Math_round 4.75%float) [10%float; 0.5%float].
Proof.
  apply (proj2 discrete_pdf_rounds Binary64.Math_ref).
  - unfold DISTRIBUTIONS. cbn [In]. do 15 right. left. reflexivity.
  - reflexivity.
Defined.

Section BinomialCoefficientDouble.
Local Open Scope float_scope.
Variable M : Binary64.MathImpl.

Lemma num_of_Z (i : nat) :
  (Z.of_nat i < 2 ^ 53)%Z -> num (N := JSNumber M) i = Binary64.of_Z (Z.of_nat i).
Proof. intros Hi. unfold num. cbn [lit JSNumber]. apply of_Q_inject_Z. lia. Qed.

Lemma binomCoeff_symmetric_double (n k : Z) :
  (0 <= k <= n)%Z -> (n < 2 ^ 53)%Z ->
  binomCoeff (N := JSNumber M) (Binary64.of_Z n) (Binary64.of_Z k) =
  binomCoeff (N := JSNumber M) (Binary64.of_Z n) (Binary64.of_Z n - Binary64.of_Z k).
Proof.
  intros Hk Hn. rewrite of_Z_sub by lia. unfold binomCoeff.
  cbn [lit sub lt strict_eq Math_min JSNumber].
  change (Binary64.of_Q 0) with (Binary64.of_Z 0).
  rewrite !of_Z_sub, !of_Z_ltb, !of_Z_eqb, !of_Z_min by lia.
  replace (n - (n - k))%Z with k by lia.
  rewrite (Z.min_comm (n - k) k).
  replace (k <? 0)%Z with false by (symmetry; apply Z.ltb_ge; lia).
  replace (n <? k)%Z with false by (symmetry; apply Z.ltb_ge; lia).
  replace (n - k <? 0)%Z with false by (symmetry; apply Z.ltb_ge; lia).
  replace (n <? n - k)%Z with false by (symmetry; apply Z.ltb_ge; lia).
  cbn [orb].
  destruct (k =? 0)%Z eqn:A, (k =? n)%Z eqn:B, (n - k =? 0)%Z eqn:C,
           (n - k =? n)%Z eqn:D; cbn [orb]; try reflexivity;
    rewrite ?Z.eqb_eq, ?Z.eqb_neq in *; lia.
Qed.

(** The loops of [binomCoeff] and [logGamma] finish within [trip_count]
    iterations on doubles too. *)
Lemma trip_count_of_Z (m : Z) :
  (0 < m < 2 ^ 53)%Z -> Binary64.trip_count (Binary64.of_Z m) = Z.to_nat m.
Proof.
  intros Hm. unfold Binary64.trip_count.
  destruct (@Zfloat_nonzero m) as (p & E & Hp & _ & Hd); [lia | lia |].
  rewrite Prim2SF_of_Z_exact, E by lia.
  replace (m <? 0)%Z with false by (symmetry; apply Z.ltb_ge; lia).
  f_equal. unfold Binary64.floorZ. cbn [cond_Zopp].
  set (k := (53 - Zdigits2 m)%Z) in *.
  replace (Zdigits2 m - 53)%Z with (- k)%Z by (unfold k; lia).
  rewrite Z.shiftl_opp_r, Z.shiftr_div_pow2 by (unfold k; lia).
  rewrite Z.abs_eq in Hp by lia.
  replace (- Zpos p)%Z with (- m * 2 ^ k)%Z by (rewrite Hp; ring).
  rewrite Z.div_mul; [lia|].
  apply Z.pow_nonzero; unfold k; lia.
Qed.

(** With an integer bound [k], more fuel than [trip_count k] changes nothing. *)
Lemma binom_loop_more_fuel_double (n : float) (m : Z) :
  (0 < m < 2 ^ 53)%Z ->
  forall (f1 f2 i : nat) (r : float),
  (Z.of_nat i <= m)%Z ->
  (Z.to_nat m <= i + f1)%nat -> (Z.to_nat m <= i + f2)%nat ->
  binom_loop (N := JSNumber M) f1 n (Binary64.of_Z m) i r =
  binom_loop (N := JSNumber M) f2 n (Binary64.of_Z m) i r.
Proof.
  intros Hm.
  assert (T : forall i : nat, (Z.of_nat i <= m)%Z ->
              lt (Number := JSNumber M) (num (N := JSNumber M) i) (Binary64.of_Z m)
              = (Z.of_nat i <? m)%Z).
  { intros i Hi. rewrite num_of_Z by lia. cbn [lt JSNumber]. apply of_Z_ltb; lia. }
  assert (Stop : forall (f i : nat) (r : float), Z.of_nat i = m ->
                 binom_loop (N := JSNumber M) f n (Binary64.of_Z m) i r = r).
  { intros [|f] i r Hi; cbn [binom_loop]; [reflexivity|].
    rewrite T by lia. replace (Z.of_nat i <? m)%Z with false; [reflexivity|].
    symmetry. apply Z.ltb_ge. lia. }
  induction f1 as [|f1 IH]; intros f2 i r Hi H1 H2.
  - rewrite !Stop by lia. reflexivity.
  - destruct f2 as [|f2]; [rewrite !Stop by lia; reflexivity|].
    cbn [binom_loop]. rewrite T by lia.
    destruct (Z.of_nat i <? m)%Z eqn:E; [|reflexivity].
    apply Z.ltb_lt in E. apply IH; lia.
Qed.

Lemma lanczos_sum_more_fuel_double (z : float) :
  forall (f1 f2 i : nat) (x : float),
  (i <= 9)%nat -> (9 <= i + f1)%nat -> (9 <= i + f2)%nat ->
  lanczos_sum (N := JSNumber M) f1 z i x = lanczos_sum (N := JSNumber M) f2 z i x.
Proof.
  assert (T : forall i : nat, (i <= 9)%nat ->
              lt (Number := JSNumber M) (num (N := JSNumber M) i)
                 (add (Number := JSNumber M) (lanczos_g (N := JSNumber M))
                      (lit (Number := JSNumber M) 2))
              = (Z.of_nat i <? 9)%Z).
  { intros i Hi. rewrite num_of_Z by lia. cbn [lt add lit JSNumber]. unfold lanczos_g.
    cbn [lit JSNumber].
    change (Binary64.of_Q 7 + Binary64.of_Q 2) with (Binary64.of_Z 9).
    apply of_Z_ltb; lia. }
  assert (Stop : forall (f : nat) (x : float),
                 lanczos_sum (N := JSNumber M) f z 9 x = x).
  { intros [|f] x; cbn [lanczos_sum]; [reflexivity|]. rewrite T by lia. reflexivity. }
  induction f1 as [|f1 IH]; intros f2 i x Hi H1 H2.
  - assert (i = 9)%nat by lia. subst. rewrite !Stop. reflexivity.
  - destruct f2 as [|f2]; [assert (i = 9)%nat by lia; subst; rewrite !Stop; reflexivity|].
    cbn [lanczos_sum]. rewrite T by lia.
    destruct (Z.of_nat i <? 9)%Z eqn:E; [|reflexivity].
    apply Z.ltb_lt in E. apply IH; lia.
Qed.

Lemma lanczos_trip_count_double :
  trip_count (Number := JSNumber M)
    (add (Number := JSNumber M) (lanczos_g (N := JSNumber M)) (lit (Number := JSNumber M) 2))
  = 9%nat.
Proof. reflexivity. Qed.

End BinomialCoefficientDouble.

(** C8: [binomCoeff n k = binomCoeff n (n - k)] for all integers
    [0 <= k <= n]: in exact arithmetic, and on doubles for every [n] below
    [2^53] (where the doubles represent the integers exactly), [n - k] being
    the subtraction the arithmetic performs. *)
Theorem binomCoeff_symmetric :
  (forall n k : Z, (0 <= k <= n)%Z ->
      binomCoeff (IZR n) (IZR k) = binomCoeff (IZR n) (IZR n - IZR k)%R) /\
  (forall (M : Binary64.MathImpl) (n k : Z), (0 <= k <= n)%Z -> (n < 2 ^ 53)%Z ->
      binomCoeff (N := JSNumber M) (Binary64.of_Z n) (Binary64.of_Z k) =
      binomCoeff (N := JSNumber M) (Binary64.of_Z n)
                 (Binary64.of_Z n - Binary64.of_Z k)%float).
Proof.
  split.
  - intros n k Hk. apply binomCoeff_symmetric_real.
    split; [apply (IZR_le 0) | apply IZR_le]; lia.
  - intros M n k Hk Hn. apply binomCoeff_symmetric_double; assumption.
Qed.

Lemma binomCoeff_symmetric_witness :
  binomCoeff (N := JS) (Binary64.of_Z 10) (Binary64.of_Z 3) =
  binomCoeff (N := JS) (Binary64.of_Z 10) (Binary64.of_Z 10 - Binary64.of_Z 3)%float.
Proof.
  apply (proj2 binomCoeff_symmetric Binary64.Math_ref 10%Z 3%Z); lia.
Defined.

(** ** The support window *)

Section ParameterRanges.
Local Open Scope R_scope.



End ParameterRanges.


Section SupportExact.
Local Open Scope R_scope.


Lemma floor_le (x : R) : IZR (Exact.floor x) <= x.
Proof. unfold Exact.floor. destruct (Int_part_spec x). lra. Qed.






End SupportExact.


Lemma support_inverted_more :
  in_range (params Triangular) [5; 0; -5]%float = true /\
  (let (lo, hi) := support (Triangular (N := JS)) [5; 0; -5]%float in lo <=? hi)%float = false /\
  in_range (params InverseGamma) [0.5; 1]%float = true /\
  support (InverseGamma (N := JS)) [0.5; 1]%float = (0, -16)%float /\
  support (InverseGamma (N := JS)) [1; 1]%float = (0, infinity)%float.
Proof. vm_compute. repeat split. Qed.



(** ** The point sampler: how many points *)

Section SamplerLength.
Local Open Scope R_scope.

Lemma continuous_loop_length (d : Distribution R) (ps : list R) (lo step : R) (n : nat) :
  forall (fuel i : nat), (i <= S n)%nat -> (S n - i <= fuel)%nat ->
  exists l, continuous_loop fuel d ps lo step (INR n) i = Some l /\
            List.length l = (S n - i)%nat.
Proof.
  induction fuel as [|fuel IH]; intros i Hi Hf.
  - exists []. cbn [continuous_loop]. rewrite num_INR. real_lits.
    replace (Exact.leb (INR i) (INR n)) with false.
    + split; [reflexivity | cbn [List.length]; lia].
    + symmetry. apply leb_false. apply lt_INR. lia.
  - cbn [continuous_loop]. rewrite num_INR. real_lits.
    destruct (Exact.leb (INR i) (INR n)) eqn:E; real_tests.
    + apply INR_le in E.
      destruct (IH (S i)) as (l & El & Hl); [lia | lia |].
      rewrite El. cbn [option_map]. eexists. split; [reflexivity|].
      cbn [List.length]. lia.
    + apply INR_lt in E. exists []. split; [reflexivity | cbn [List.length]; lia].
Qed.

Lemma discrete_loop_range (d : Distribution R) (ps : list R) (b : Z) :
  forall (c fuel : nat) (a : Z), c = Z.to_nat (b - a + 1) -> (c <= fuel)%nat ->
  discrete_loop fuel d ps (IZR a) (IZR b) =
  Some (map (fun k => {| px := IZR k; py := pdf d (IZR k) ps |}) (Zrange a c)).
Proof.
  induction c as [|c IH]; intros fuel a Hc Hf.
  - assert (b < a)%Z by lia.
    assert (E : Exact.leb (IZR a) (IZR b) = false) by (apply leb_false, IZR_lt; assumption).
    destruct fuel; cbn [discrete_loop]; real_lits; rewrite E; reflexivity.
  - assert (a <= b)%Z by lia.
    assert (E : Exact.leb (IZR a) (IZR b) = true) by (apply leb_true, IZR_le; assumption).
    destruct fuel as [|fuel]; [lia|].
    cbn [discrete_loop]. real_lits. rewrite E.
    replace (IZR a + 1 * / 1) with (IZR (a + 1)) by (rewrite plus_IZR; lra).
    rewrite (IH fuel (a + 1)%Z) by lia. reflexivity.
Qed.

Lemma Zrange_length (a : Z) (n : nat) : List.length (Zrange a n) = n.
Proof. revert a; induction n; intros; cbn; auto. Qed.

Lemma computePoints_continuous_length (d : Distribution R) (ps : list R) (n fuel : nat) :
  kind d = continuous -> (n < fuel)%nat ->
  exists l, computePoints fuel d ps (INR n) = Some l /\ List.length l = S n.
Proof.
  intros Hk Hf. unfold computePoints. destruct (support d ps) as [lo hi].
  rewrite Hk.
  destruct (@continuous_loop_length d ps lo ((hi - lo) / INR n) n fuel 0%nat) as (l & E & Hl);
    [lia | lia |].
  exists l. real_lits. split; [exact E | lia].
Qed.

Lemma computePoints_discrete_range (d : Distribution R) (ps : list R) (numPoints : R)
    (fuel : nat) :
  kind d = discrete ->
  let a := Exact.ceil (fst (support d ps) + 1 / 2) in
  let b := Exact.floor (snd (support d ps) - 1 / 2) in
  (Z.to_nat (b - a + 1) <= fuel)%nat ->
  exists l, computePoints fuel d ps numPoints = Some l /\
            map (@px R) l = map IZR (Zrange a (Z.to_nat (b - a + 1))) /\
            List.length l = Z.to_nat (b - a + 1).
Proof.
  intros Hk a b Hf. unfold computePoints.
  destruct (support d ps) as [lo hi] eqn:Es. rewrite Hk. real_lits.
  cbn [fst snd] in *.
  replace (lo + 5 * / 10) with (lo + 1 / 2) by lra.
  replace (hi - 5 * / 10) with (hi - 1 / 2) by lra.
  fold a b.
  rewrite (@discrete_loop_range d ps b (Z.to_nat (b - a + 1)) fuel a) by auto.
  eexists. split; [reflexivity|]. split.
  - rewrite map_map. reflexivity.
  - rewrite length_map. apply Zrange_length.
Qed.


End SamplerLength.

(** ** The point sampler: order of the points *)

Section SamplerOrder.
Local Open Scope R_scope.













End SamplerOrder.

(** ** The point sampler on doubles

    With integer bounds below [2^53] the loops count exactly as in exact
    arithmetic. *)

Section SamplerDouble.
Local Open Scope float_scope.
Variable M : Binary64.MathImpl.

Lemma continuous_loop_length_double (d : Distribution float) (ps : list float)
    (lo step : float) (n : nat) :
  (Z.of_nat n + 1 < 2 ^ 53)%Z ->
  forall (fuel i : nat), (i <= S n)%nat -> (S n - i <= fuel)%nat ->
  exists l, continuous_loop (N := JSNumber M) fuel d ps lo step
              (Binary64.of_Z (Z.of_nat n)) i = Some l /\
            List.length l = (S n - i)%nat.
Proof.
  intros Hn. induction fuel as [|fuel IH]; intros i Hi Hf.
  - exists []. cbn [continuous_loop]. rewrite num_of_Z by lia.
    cbn [le JSNumber]. rewrite of_Z_leb by lia.
    replace (Z.of_nat i <=? Z.of_nat n)%Z with false by (symmetry; apply Z.leb_gt; lia).
    split; [reflexivity | cbn [List.length]; lia].
  - cbn [continuous_loop]. rewrite num_of_Z by lia.
    cbn [le JSNumber]. rewrite of_Z_leb by lia.
    destruct (Z.of_nat i <=? Z.of_nat n)%Z eqn:E.
    + apply Z.leb_le in E.
      destruct (IH (S i)) as (l & El & Hl); [lia | lia |].
      rewrite El. cbn [option_map]. eexists. split; [reflexivity|].
      cbn [List.length]. lia.
    + apply Z.leb_gt in E. exists []. split; [reflexivity | cbn [List.length]; lia].
Qed.

Lemma discrete_loop_range_double (d : Distribution float) (ps : list float) (b : Z) :
  (Z.abs b + 1 < 2 ^ 53)%Z ->
  forall (c fuel : nat) (a : Z), (Z.abs a < 2 ^ 53)%Z ->
  c = Z.to_nat (b - a + 1) -> (c <= fuel)%nat ->
  discrete_loop (N := JSNumber M) fuel d ps (Binary64.of_Z a) (Binary64.of_Z b) =
  Some (map (fun k => {| px := Binary64.of_Z k; py := pdf d (Binary64.of_Z k) ps |})
            (Zrange a c)).
Proof.
  intros Hb. induction c as [|c IH]; intros fuel a Ha Hc Hf.
  - assert (E : (Binary64.of_Z a <=? Binary64.of_Z b) = false).
    { rewrite of_Z_leb by lia. apply Z.leb_gt. lia. }
    destruct fuel; cbn [discrete_loop le JSNumber]; rewrite E; reflexivity.
  - assert (E : (Binary64.of_Z a <=? Binary64.of_Z b) = true).
    { rewrite of_Z_leb by lia. apply Z.leb_le. lia. }
    destruct fuel as [|fuel]; [lia|].
    cbn [discrete_loop le add lit JSNumber]. rewrite E.
    change (Binary64.of_Q 1) with (Binary64.of_Z 1).
    rewrite of_Z_add by lia.
    rewrite (IH fuel (a + 1)%Z) by lia. reflexivity.
Qed.


Lemma computePoints_continuous_length_double (d : Distribution float) (ps : list float)
    (n fuel : nat) :
  kind d = continuous -> (Z.of_nat n + 1 < 2 ^ 53)%Z -> (n < fuel)%nat ->
  exists l, computePoints (N := JSNumber M) fuel d ps (Binary64.of_Z (Z.of_nat n)) = Some l /\
            List.length l = S n.
Proof.
  intros Hk Hn Hf. unfold computePoints. destruct (support d ps) as [lo hi].
  rewrite Hk.
  destruct (@continuous_loop_length_double d ps lo
              (div (Number := JSNumber M) (sub (Number := JSNumber M) hi lo)
                   (Binary64.of_Z (Z.of_nat n))) n Hn fuel 0%nat)
    as (l & E & Hl); [lia | lia |].
  exists l. split; [exact E | lia].
Qed.

Lemma computePoints_discrete_range_double (d : Distribution float) (ps : list float)
    (numPoints : float) (fuel : nat) (a b : Z) :
  kind d = discrete ->
  Math_ceil (Number := JSNumber M) (fst (support d ps) + Binary64.of_Q 0.5) = Binary64.of_Z a ->
  Math_floor (Number := JSNumber M) (snd (support d ps) - Binary64.of_Q 0.5) = Binary64.of_Z b ->
  (Z.abs a < 2 ^ 53)%Z -> (Z.abs b + 1 < 2 ^ 53)%Z ->
  (Z.to_nat (b - a + 1) <= fuel)%nat ->
  exists l, computePoints (N := JSNumber M) fuel d ps numPoints = Some l /\
            map (@px float) l = map Binary64.of_Z (Zrange a (Z.to_nat (b - a + 1))) /\
            List.length l = Z.to_nat (b - a + 1).
Proof.
  intros Hk Ea Eb Ha Hb Hf. unfold computePoints.
  destruct (support d ps) as [lo hi]. rewrite Hk. cbn [fst snd] in *.
  cbn [add sub lit JSNumber]. rewrite Ea, Eb.
  rewrite (@discrete_loop_range_double d ps b Hb (Z.to_nat (b - a + 1)) fuel a) by auto.
  eexists. split; [reflexivity|]. split.
  - rewrite map_map. reflexivity.
  - rewrite length_map. apply Zrange_length.
Qed.

End SamplerDouble.

(** On doubles: the families at their default parameters, [numPoints = 300]. *)
Lemma computePoints_default_lengths :
  map (fun d => option_map (@List.length _)
                  (computePoints 400 d (map (fun p => Binary64.of_Q (default p)) (params d))
                                 defaultNumPoints))
      (DISTRIBUTIONS (N := JS)) =
  map Some (repeat 301%nat 15 ++ [11; 21; 19; 20; 6; 2]%nat).
Proof. vm_cast_no_check (eq_refl (map Some (repeat 301%nat 15 ++ [11; 21; 19; 20; 6; 2]%nat))). Qed.

(** C3: for a continuous family [computePoints] returns [numPoints + 1]
    points; for a discrete family it returns one point for each integer [k]
    with [ceil(lo + 0.5) <= k <= floor(hi - 0.5)], in increasing order, where
    [(lo, hi) = support params].  In exact arithmetic, and on doubles for
    integers below [2^53].  [fuel] bounds the number of loop iterations: the
    statement says that the loop ends within it. *)
Theorem computePoints_length :
  (* exact arithmetic *)
  (forall (d : Distribution R) (ps : list R) (n fuel : nat),
      kind d = continuous -> (n < fuel)%nat ->
      exists l, computePoints fuel d ps (INR n) = Some l /\ List.length l = S n) /\
  (forall (d : Distribution R) (ps : list R) (numPoints : R) (fuel : nat),
      kind d = discrete ->
      let a := Exact.ceil (fst (support d ps) + 1 / 2) in
      let b := Exact.floor (snd (support d ps) - 1 / 2) in
      (Z.to_nat (b - a + 1) <= fuel)%nat ->
      exists l, computePoints fuel d ps numPoints = Some l /\
                map (@px R) l = map IZR (Zrange a (Z.to_nat (b - a + 1))) /\
                List.length l = Z.to_nat (b - a + 1)) /\
  (* doubles *)
  (forall (M : Binary64.MathImpl) (d : Distribution float) (ps : list float)
          (n fuel : nat),
      kind d = continuous -> (Z.of_nat n + 1 < 2 ^ 53)%Z -> (n < fuel)%nat ->
      exists l, computePoints (N := JSNumber M) fuel d ps (Binary64.of_Z (Z.of_nat n))
                = Some l /\
                List.length l = S n) /\
  (forall (M : Binary64.MathImpl) (d : Distribution float) (ps : list float)
          (numPoints : float) (fuel : nat) (a b : Z),
      kind d = discrete ->
      Math_ceil (Number := JSNumber M)
        (fst (support d ps) + Binary64.of_Q 0.5)%float = Binary64.of_Z a ->
      Math_floor (Number := JSNumber M)
        (snd (support d ps) - Binary64.of_Q 0.5)%float = Binary64.of_Z b ->
      (Z.abs a < 2 ^ 53)%Z -> (Z.abs b + 1 < 2 ^ 53)%Z ->
      (Z.to_nat (b - a + 1) <= fuel)%nat ->
      exists l, computePoints (N := JSNumber M) fuel d ps numPoints = Some l /\
                map (@px float) l = map Binary64.of_Z (Zrange a (Z.to_nat (b - a + 1))) /\
                List.length l = Z.to_nat (b - a + 1)).
Proof.
  repeat split.
  - apply computePoints_continuous_length.
  - apply computePoints_discrete_range.
  - intros M d ps n fuel. apply computePoints_continuous_length_double.
  - intros M d ps numPoints fuel a b. apply computePoints_discrete_range_double.
Qed.

Lemma computePoints_length_witness :
  exists l, computePoints (N := JS) 20 Binomial [10; 0.5]%float defaultNumPoints = Some l /\
            map (@px float) l = map Binary64.of_Z (Zrange 0 11) /\
            List.length l = 11%nat.
Proof.
  apply (proj2 (proj2 (proj2 computePoints_length)) Binary64.Math_ref
           Binomial [10; 0.5]%float defaultNumPoints 20%nat 0%Z 10%Z).
  - reflexivity.
  - reflexivity.
  - reflexivity.
  - cbn. lia.
  - cbn. lia.
  - cbn. lia.
Defined.




(** ** Sign and finiteness of the densities *)

Section DensityExact.
Local Open Scope R_scope.









End DensityExact.



Section DensityOverflow.
Local Open Scope float_scope.

(** Whatever [Math.exp] and [Math.pow] approximate, once they follow
    ECMAScript on [+Infinity]. *)
Lemma Logistic_overflow (M : Binary64.MathImpl) :
  Binary64.m_exp M infinity = infinity ->
  Binary64.m_pow M infinity 2 = infinity ->
  pdf (Logistic (N := JSNumber M)) (-0x1.fffffffffffffp+1023) [0; Binary64.of_Q 0.1] = nan.
Proof.
  intros Hexp Hpow. cbn [pdf Logistic arg nth].
  cbn [lit add sub mul div neg Math_exp Math_pow JSNumber].
  change (- (-0x1.fffffffffffffp+1023 - 0) / Binary64.of_Q 0.1) with infinity.
  rewrite Hexp.
  change (Binary64.of_Q 1 + infinity) with infinity.
  change (Binary64.of_Q 2) with 2. rewrite Hpow.
  reflexivity.
Qed.

End DensityOverflow.

Section DensityClaim.
Local Open Scope R_scope.


End DensityClaim.


(** ** Non-finite values in the sampler *)

Section SamplerFinite.
Context {T : Type} {N : Number T}.
Local Open Scope js_scope.

(** The continuous branch replaces a non-finite density by [0]. *)
Lemma continuous_loop_finite (d : Distribution T) (ps : list T) (lo step numPoints : T) :
  isFinite #0 = true ->
  forall (fuel i : nat) (l : list (Point T)),
  continuous_loop fuel d ps lo step numPoints i = Some l ->
  Forall (fun p => isFinite (py p) = true) l.
Proof.
  intros H0. induction fuel as [|fuel IH]; intros i l E; cbn [continuous_loop] in E;
    destruct (num i <=? numPoints); try discriminate;
    try (injection E as <-; constructor).
  destruct (continuous_loop fuel d ps lo step numPoints (S i)) as [l'|] eqn:E';
    [|discriminate].
  cbn [option_map] in E. injection E as <-. constructor; [|eapply IH; eassumption].
  cbn [py]. destruct (isFinite (pdf d (lo + num i * step) ps)) eqn:F; assumption.
Qed.

Lemma continuous_points_finite (d : Distribution T) (ps : list T) (numPoints : T)
    (fuel : nat) (l : list (Point T)) :
  isFinite #0 = true -> kind d = continuous ->
  computePoints fuel d ps numPoints = Some l ->
  Forall (fun p => isFinite (py p) = true) l.
Proof.
  intros H0 Hk E. unfold computePoints in E. destruct (support d ps) as [lo hi].
  rewrite Hk in E. eapply continuous_loop_finite; eassumption.
Qed.

(** The discrete branch stores [pdf k params] as it is. *)
Lemma discrete_loop_unfiltered (d : Distribution T) (ps : list T) (hi_i : T) :
  forall (fuel : nat) (k : T) (l : list (Point T)),
  discrete_loop fuel d ps k hi_i = Some l ->
  Forall (fun p => py p = pdf d (px p) ps) l.
Proof.
  induction fuel as [|fuel IH]; intros k l E; cbn [discrete_loop] in E;
    destruct (k <=? hi_i); try discriminate;
    try (injection E as <-; constructor).
  destruct (discrete_loop fuel d ps (k + #1) hi_i) as [l'|] eqn:E'; [|discriminate].
  cbn [option_map] in E. injection E as <-. constructor; [reflexivity|].
  eapply IH; eassumption.
Qed.

End SamplerFinite.


(** The same value whatever [Math.exp] and [Math.log] approximate, as long
    as they follow ECMAScript on [NaN] and [0]. *)
Lemma Poisson_zero_rate_nan (M : Binary64.MathImpl) :
  Binary64.m_log M 0%float = neg_infinity ->
  Binary64.m_exp M nan = nan ->
  pdf (Poisson (N := JSNumber M)) 0%float [0%float] = nan.
Proof.
  intros Hlog Hexp. cbn [pdf Poisson arg nth].
  cbn [lit add sub mul lt Math_round Math_exp Math_log JSNumber].
  change (Binary64.round 0) with 0%float. change (Binary64.of_Q 0) with 0%float.
  change (0 <? 0)%float with false. cbv iota. rewrite Hlog.
  change (0 * neg_infinity - 0)%float with nan.
  replace (nan - _)%float with nan; [exact Hexp|].
  apply Prim2SF_inj. rewrite sub_spec. reflexivity.
Qed.

(** ** The scenarios of the specification, on doubles *)

Lemma spec_scenarios :
  close_to (pdf (Normal (N := JS)) 0 [0; 1])%float 0.398942 = true /\
  close_to (pdf (Binomial (N := JS)) 5 [10; 0.5])%float 0.246094 = true /\
  close_to (pdf (Poisson (N := JS)) 5 [5])%float 0.175467 = true /\
  pdf (Uniform (N := JS)) 0.5%float [0; 1]%float = 1%float /\
  pdf (Uniform (N := JS)) (Binary64.of_Q (-0.1)) [0; 1]%float = 0%float /\
  close_to (pdf (DiscreteUniform (N := JS)) 3 [1; 6])%float 0.166667 = true /\
  pdf (Uniform (N := JS)) 0.25%float [1; 0]%float = 0%float /\
  close_to (logGamma (N := JS) 6%float) 4.787492 = true /\
  close_to (erf (N := JS) 3%float) 0.999978 = true.
Proof. vm_compute. repeat split. Qed.

(** * Further properties of the code *)

(** ** The binomial coefficient and the finite families *)

Section BinomialExact.
Local Open Scope R_scope.










End BinomialExact.



Section FiniteFamilies.
Local Open Scope R_scope.






End FiniteFamilies.




(** ** Shapes of the densities *)

Section DensityShapes.
Local Open Scope R_scope.


End DensityShapes.




(** ** The sampled positions *)

Section SamplerPositions.
Local Open Scope R_scope.


End SamplerPositions.



(** ** Degenerate numbers of points, on doubles *)

Section SamplerEdges.
Variable M : Binary64.MathImpl.
Local Open Scope float_scope.

Lemma zero_times_quotient_by_zero (a : float) : 0 * (a / 0) = nan.
Proof.
  apply FloatAxioms.Prim2SF_inj.
  rewrite FloatAxioms.mul_spec, FloatAxioms.div_spec.
  change (Prim2SF 0) with (S754_zero false). change (Prim2SF nan) with S754_nan.
  destruct (Prim2SF a) as [s|s| |s m e]; reflexivity.
Qed.

Lemma add_nan_r (a : float) : a + nan = nan.
Proof.
  apply FloatAxioms.Prim2SF_inj. rewrite FloatAxioms.add_spec.
  change (Prim2SF nan) with S754_nan.
  destruct (Prim2SF a) as [s|s| |s m e]; reflexivity.
Qed.

End SamplerEdges.

(** X9: [numPoints] that is not a positive number.  For a continuous family
    on doubles, [numPoints = 0] divides by zero: the result is one point
    whose [x] is [NaN] (and whose [y] is finite); a negative [numPoints] or
    [NaN] gives no point at all. *)
Theorem computePoints_degenerate_numPoints (M : Binary64.MathImpl)
    (d : Distribution float) (ps : list float) :
  kind d = continuous ->
  (exists y, computePoints (N := JSNumber M) 1 d ps 0%float
             = Some [ {| px := nan; py := y |} ] /\ is_finite y = true) /\
  (forall (numPoints : float) (fuel : nat), (0 <=? numPoints)%float = false ->
     computePoints (N := JSNumber M) fuel d ps numPoints = Some []).
Proof.
  intros Hk. split.
  - unfold computePoints. destruct (support d ps) as [lo hi]. rewrite Hk.
    cbn [continuous_loop]. unfold num.
    cbn [lit add sub mul div le isFinite toFixed6 JSNumber].
    change (Binary64.of_Q (inject_Z (Z.of_nat 0))) with 0%float.
    change (Binary64.of_Q (inject_Z (Z.of_nat 1))) with 1%float.
    change (0 <=? 0)%float with true. change (1 <=? 0)%float with false.
    cbv iota. cbn [option_map].
    rewrite zero_times_quotient_by_zero, add_nan_r.
    change (Binary64.toFixed6 nan) with nan.
    eexists. split; [reflexivity|].
    destruct (is_finite (pdf d nan ps)) eqn:F; [exact F | reflexivity].
  - intros numPoints fuel Hn. unfold computePoints. destruct (support d ps) as [lo hi].
    rewrite Hk. destruct fuel; cbn [continuous_loop]; unfold num;
      cbn [lit le JSNumber]; change (Binary64.of_Q (inject_Z (Z.of_nat 0))) with 0%float;
      rewrite Hn; reflexivity.
Qed.

Lemma computePoints_degenerate_numPoints_witness :
  (exists y, computePoints (N := JS) 1 Normal [0; 1]%float 0%float
             = Some [ {| px := nan; py := y |} ] /\ is_finite y = true) /\
  (forall (numPoints : float) (fuel : nat), (0 <=? numPoints)%float = false ->
     computePoints (N := JS) fuel Normal [0; 1]%float numPoints = Some []).
Proof. apply (computePoints_degenerate_numPoints Binary64.Math_ref). reflexivity. Defined.

Section StoredPositions.
Local Open Scope R_scope.



End StoredPositions.



(** ** Symmetry on doubles *)

Section DoubleSymmetry.
Local Open Scope float_scope.

Lemma SFmul_opp_r a b :
  SFmul prec emax a (SFopp b) = SFopp (SFmul prec emax a b).
Proof.
  destruct a as [sa|sa| |sa ma ea], b as [sb|sb| |sb mb eb]; cbn;
    try reflexivity;
    try (destruct sa, sb; reflexivity).
  rewrite <- binary_round_aux_opp. destruct sa, sb; reflexivity.
Qed.

Lemma mul_opp_r (a b : float) : a * (- b) = - (a * b).
Proof.
  apply FloatAxioms.Prim2SF_inj.
  rewrite FloatAxioms.opp_spec, !FloatAxioms.mul_spec, FloatAxioms.opp_spec.
  apply SFmul_opp_r.
Qed.

Lemma SFdiv_opp_l a b :
  SFdiv prec emax (SFopp a) b = SFopp (SFdiv prec emax a b).
Proof.
  destruct a as [sa|sa| |sa ma ea], b as [sb|sb| |sb mb eb]; cbn [SFdiv SFopp];
    try reflexivity;
    try (destruct sa, sb; reflexivity).
  destruct (SFdiv_core_binary prec emax (Zpos ma) ea (Zpos mb) eb) as [[mz ez] lz].
  rewrite <- binary_round_aux_opp. destruct sa, sb; reflexivity.
Qed.

Lemma div_opp_l (a b : float) : (- a) / b = - (a / b).
Proof.
  apply FloatAxioms.Prim2SF_inj.
  rewrite FloatAxioms.opp_spec, !FloatAxioms.div_spec, FloatAxioms.opp_spec.
  apply SFdiv_opp_l.
Qed.

Lemma sub_zero_r (a : float) : a - 0 = a.
Proof.
  apply FloatAxioms.Prim2SF_inj. rewrite FloatAxioms.sub_spec.
  change (Prim2SF 0) with (S754_zero false).
  destruct (Prim2SF a) as [s|s| |s m e]; try reflexivity. destruct s; reflexivity.
Qed.

End DoubleSymmetry.

(** X11: on doubles, the densities of Normal, StudentT, Cauchy and Laplace
    located at [0] are even functions, bit for bit: [pdf (-x) = pdf x] for
    every double [x], every value of the other parameters and whatever
    [Math.exp], [Math.pow] and [Math.log] return. *)
Theorem centred_families_even_on_doubles (M : Binary64.MathImpl) (x : float) :
  (forall sigma, pdf (Normal (N := JSNumber M)) (- x)%float [0%float; sigma]
                 = pdf (Normal (N := JSNumber M)) x [0%float; sigma]) /\
  (forall nu sigma, pdf (StudentT (N := JSNumber M)) (- x)%float [nu; 0%float; sigma]
                    = pdf (StudentT (N := JSNumber M)) x [nu; 0%float; sigma]) /\
  (forall beta, pdf (Cauchy (N := JSNumber M)) (- x)%float [0%float; beta]
                = pdf (Cauchy (N := JSNumber M)) x [0%float; beta]) /\
  (forall b, pdf (Laplace (N := JSNumber M)) (- x)%float [0%float; b]
             = pdf (Laplace (N := JSNumber M)) x [0%float; b]).
Proof.
  split; [|split; [|split]].
  - intros sigma. cbn [pdf Normal arg nth]. unfold normalPDF.
    cbn [lit add sub mul div neg Math_exp JSNumber].
    rewrite !sub_zero_r, div_opp_l.
    repeat rewrite ?mul_opp_r, ?mul_opp_l, ?opp_involutive. reflexivity.
  - intros nu sigma. cbn [pdf StudentT arg nth].
    cbn [lit add sub mul div neg Math_exp Math_pow Math_sqrt Math_PI JSNumber].
    rewrite !sub_zero_r, div_opp_l.
    repeat rewrite ?mul_opp_r, ?mul_opp_l, ?opp_involutive. reflexivity.
  - intros beta. cbn [pdf Cauchy arg nth].
    cbn [lit add sub mul div neg Math_PI JSNumber].
    rewrite !sub_zero_r, div_opp_l.
    repeat rewrite ?mul_opp_r, ?mul_opp_l, ?opp_involutive. reflexivity.
  - intros b. cbn [pdf Laplace arg nth].
    cbn [lit add sub mul div neg Math_exp Math_abs JSNumber].
    rewrite !sub_zero_r, abs_opp. reflexivity.
Qed.

(** ** The sign of [erf] and the halves of [normalCDF] *)

Section ErfSign.
Local Open Scope R_scope.



End ErfSign.



(** ** The reflection of [logGamma] *)



(** ** Where the densities peak *)

Section Modes.
Local Open Scope R_scope.




End Modes.



(** ** The order of the doubles

    [<], [<=] and [===] on doubles that are not [NaN]: a total preorder, and
    [Math.max] picks one of its arguments. *)

Section DoubleOrder.
Local Open Scope float_scope.

Lemma SFcompare_refl (f : spec_float) : f <> S754_nan -> SFcompare f f = Some Eq.
Proof.
  destruct f as [s|s| |s m e]; intros H; try reflexivity; try (destruct s; reflexivity).
  - contradiction.
  - cbn [SFcompare]. rewrite Z.compare_refl.
    change (Pos.compare_cont Eq m m) with (Pos.compare m m). rewrite Pos.compare_refl.
    destruct s; reflexivity.
Qed.

Lemma SFcompare_antisym (f1 f2 : spec_float) :
  SFcompare f2 f1 = option_map CompOpp (SFcompare f1 f2).
Proof.
  destruct f1 as [s1|s1| |s1 m1 e1], f2 as [s2|s2| |s2 m2 e2]; cbn [SFcompare option_map];
    try reflexivity; try (destruct s1; reflexivity); try (destruct s2; reflexivity);
    try (destruct s1, s2; reflexivity).
  change (Pos.compare_cont Eq m1 m2) with (Pos.compare m1 m2).
  change (Pos.compare_cont Eq m2 m1) with (Pos.compare m2 m1).
  rewrite (Z.compare_antisym e1 e2), (Pos.compare_antisym m1 m2).
  destruct s1, s2; try reflexivity;
    destruct (e1 ?= e2)%Z; cbn [CompOpp]; try reflexivity;
    destruct (m1 ?= m2)%positive; reflexivity.
Qed.

Lemma SFleb_trans (f1 f2 f3 : spec_float) :
  SFleb f1 f2 = true -> SFleb f2 f3 = true -> SFleb f1 f3 = true.
Proof.
  unfold SFleb.
  destruct f1 as [s1|s1| |s1 m1 e1], f2 as [s2|s2| |s2 m2 e2], f3 as [s3|s3| |s3 m3 e3];
    cbn [SFcompare]; try discriminate; try reflexivity;
    try (destruct s1; try discriminate; try reflexivity);
    try (destruct s2; try discriminate; try reflexivity);
    try (destruct s3; try discriminate; try reflexivity);
    change (Pos.compare_cont Eq m1 m2) with (Pos.compare m1 m2);
    change (Pos.compare_cont Eq m2 m3) with (Pos.compare m2 m3);
    change (Pos.compare_cont Eq m1 m3) with (Pos.compare m1 m3);
    destruct (Z.compare_spec e1 e2), (Z.compare_spec e2 e3), (Z.compare_spec e1 e3);
    try lia; try discriminate; try reflexivity;
    destruct (Pos.compare_spec m1 m2), (Pos.compare_spec m2 m3), (Pos.compare_spec m1 m3);
    cbn [CompOpp]; try lia; try discriminate; try reflexivity.
Qed.

Lemma is_nan_false (a : float) : is_nan a = false <-> Prim2SF a <> S754_nan.
Proof.
  unfold is_nan. rewrite FloatAxioms.eqb_spec. unfold SFeqb. split.
  - intros H E. rewrite E in H. discriminate.
  - intros H. rewrite SFcompare_refl by exact H. reflexivity.
Qed.

Lemma eqb_refl_double (a : float) : is_nan a = false -> (a =? a) = true.
Proof. unfold is_nan. destruct (a =? a); [reflexivity | discriminate]. Qed.

Lemma leb_refl_double (a : float) : is_nan a = false -> (a <=? a) = true.
Proof.
  intros H. apply is_nan_false in H.
  rewrite FloatAxioms.leb_spec. unfold SFleb. rewrite SFcompare_refl by exact H. reflexivity.
Qed.

Lemma leb_trans_double (a b c : float) :
  (a <=? b) = true -> (b <=? c) = true -> (a <=? c) = true.
Proof. rewrite !FloatAxioms.leb_spec. apply SFleb_trans. Qed.

Lemma ltb_leb_double (a b : float) : (a <? b) = true -> (a <=? b) = true.
Proof.
  rewrite FloatAxioms.ltb_spec, FloatAxioms.leb_spec. unfold SFltb, SFleb.
  destruct (SFcompare (Prim2SF a) (Prim2SF b)) as [[]|]; congruence.
Qed.

Lemma SFcompare_defined (f1 f2 : spec_float) :
  f1 <> S754_nan -> f2 <> S754_nan -> SFcompare f1 f2 <> None.
Proof. destruct f1, f2; cbn [SFcompare]; congruence. Qed.

Lemma not_ltb_leb_double (a b : float) :
  is_nan a = false -> is_nan b = false -> (a <? b) = false -> (b <=? a) = true.
Proof.
  intros Ha Hb. apply is_nan_false in Ha, Hb.
  rewrite FloatAxioms.ltb_spec, FloatAxioms.leb_spec. unfold SFltb, SFleb.
  rewrite (SFcompare_antisym (Prim2SF a) (Prim2SF b)).
  pose proof (SFcompare_defined Ha Hb) as Hd.
  destruct (SFcompare (Prim2SF a) (Prim2SF b)) as [[]|]; cbn; congruence.
Qed.

(** [Math.max] of two doubles that are not [NaN] is one of the two, and not
    below either. *)
Lemma max_double (a b : float) :
  is_nan a = false -> is_nan b = false ->
  (Binary64.max a b = a \/ Binary64.max a b = b) /\
  (a <=? Binary64.max a b) = true /\ (b <=? Binary64.max a b) = true.
Proof.
  intros Ha Hb. unfold Binary64.max. rewrite Ha, Hb. cbn [orb].
  destruct (a <? b) eqn:Eab.
  { split; [right; reflexivity|]. split; [apply ltb_leb_double; exact Eab|].
    apply leb_refl_double; exact Hb. }
  destruct (b <? a) eqn:Eba.
  { split; [left; reflexivity|]. split; [apply leb_refl_double; exact Ha|].
    apply ltb_leb_double; exact Eba. }
  pose proof (not_ltb_leb_double Ha Hb Eab). pose proof (not_ltb_leb_double Hb Ha Eba).
  destruct (get_sign a).
  - split; [right; reflexivity|]. split; [assumption | apply leb_refl_double; exact Hb].
  - split; [left; reflexivity|]. split; [apply leb_refl_double; exact Ha | assumption].
Qed.

Lemma max_nan_l (b : float) : Binary64.max nan b = nan.
Proof. reflexivity. Qed.

Lemma max_nan_r (a : float) : Binary64.max a nan = nan.
Proof. unfold Binary64.max. rewrite orb_true_r. reflexivity. Qed.

Lemma is_nan_true (a : float) : is_nan a = true -> a = nan.
Proof.
  intros H. apply FloatAxioms.Prim2SF_inj.
  destruct (Prim2SF a) eqn:E; try reflexivity; exfalso;
    assert (is_nan a = false) by (apply is_nan_false; rewrite E; discriminate); congruence.
Qed.

Lemma is_finite_not_nan (a : float) : is_finite a = true -> is_nan a = false.
Proof. unfold is_finite. destruct (is_nan a); [discriminate | reflexivity]. Qed.

End DoubleOrder.

(** ** The explorer component *)

Section ParamValuesFacts.
Context {T : Type} {N : Number T}.
Import App.

(** Reading a key of [{ ...prev, [key]: value }]. *)
Lemma lookup_assign (pv : ParamValues) (k k' : string) (v : T) :
  lookup (assign pv k v) k' = if String.eqb k k' then Some v else lookup pv k'.
Proof.
  induction pv as [|[k0 v0] pv IH]; cbn [assign lookup].
  - reflexivity.
  - destruct (String.eqb_spec k0 k) as [->|Hk0]; cbn [lookup].
    + destruct (String.eqb k k'); reflexivity.
    + rewrite IH. destruct (String.eqb_spec k0 k') as [->|Hk0'].
      * destruct (String.eqb_spec k k'); congruence.
      * reflexivity.
Qed.

(** A key determines the family and the parameter it was built from, as
    long as the names of families hold no underscore. *)
Lemma key_inj (a b a' b' : string) :
  no_underscore a = true -> no_underscore a' = true ->
  key a b = key a' b' -> a = a' /\ b = b'.
Proof.
  unfold key. revert a'. induction a as [|c a IH]; intros [|c' a'] Ha Ha' E; cbn in *.
  - injection E as ->. split; reflexivity.
  - injection E as <- _. discriminate.
  - injection E as -> _. discriminate.
  - injection E as <- E. apply andb_true_iff in Ha as [_ Ha], Ha' as [_ Ha'].
    destruct (IH a' Ha Ha' E) as [-> ->]. split; reflexivity.
Qed.

Lemma distinct_NoDup (l : list string) : distinct l = true -> NoDup l.
Proof.
  induction l as [|x l IH]; cbn [distinct]; intros H; constructor;
    apply andb_true_iff in H as [H1 H2].
  - intros Hin. apply negb_true_iff in H1.
    assert (existsb (String.eqb x) l = true); [|congruence].
    apply existsb_exists. exists x. split; [exact Hin | apply String.eqb_refl].
  - apply IH. exact H2.
Qed.

Lemma registry_names :
  Forall (fun d : Distribution T =>
            no_underscore (name d) = true /\ NoDup (map pname (params d)))
         DISTRIBUTIONS.
Proof.
  unfold DISTRIBUTIONS.
  repeat (constructor; [split; [reflexivity | apply distinct_NoDup; reflexivity] |]).
  constructor.
Qed.

Lemma NoDup_nth_error_inj (A : Type) (l : list A) (i j : nat) (x : A) :
  NoDup l -> nth_error l i = Some x -> nth_error l j = Some x -> i = j.
Proof.
  intros Hnd Hi Hj. apply (proj1 (NoDup_nth_error l) Hnd).
  - apply nth_error_Some. congruence.
  - congruence.
Qed.

End ParamValuesFacts.

Section ExplorerClaims.
Context {T : Type} {N : Number T}.
Import App.

Lemma getParams_nth (pv : ParamValues) (d : Distribution T) (i : nat) :
  nth_error (getParams pv d) i =
  option_map (fun p => match lookup pv (key (name d) (pname p)) with
                       | Some v => v
                       | None => lit (default p)
                       end)
             (nth_error (params d) i).
Proof. unfold getParams. apply nth_error_map. Qed.

(** X15: moving the slider of one parameter sets that entry of the parameter
    vector and no other: the other parameters of the family keep their
    values, and so does every parameter of every other family. *)
Theorem getParams_after_change (d : Distribution T) (i : nat) (p : ParamDef) (v : T)
    (pv : ParamValues) :
  In d DISTRIBUTIONS -> nth_error (params d) i = Some p ->
  nth_error (getParams (handleParamChange d (pname p) v pv) d) i = Some v /\
  (forall j, j <> i ->
     nth_error (getParams (handleParamChange d (pname p) v pv) d) j
     = nth_error (getParams pv d) j) /\
  (forall d', In d' DISTRIBUTIONS -> name d' <> name d ->
     getParams (handleParamChange d (pname p) v pv) d' = getParams pv d').
Proof.
  intros Hd Hp. pose proof registry_names as Hreg. rewrite Forall_forall in Hreg.
  destruct (Hreg d Hd) as [Hu Hnd]. unfold handleParamChange. split; [|split].
  - rewrite getParams_nth, Hp. cbn [option_map].
    rewrite lookup_assign, String.eqb_refl. reflexivity.
  - intros j Hj. rewrite !getParams_nth.
    destruct (nth_error (params d) j) as [q|] eqn:Hq; [|reflexivity].
    cbn [option_map]. rewrite lookup_assign.
    destruct (String.eqb_spec (key (name d) (pname p)) (key (name d) (pname q))) as [E|_];
      [|reflexivity].
    exfalso. apply key_inj in E as [_ E]; [|assumption|assumption].
    apply Hj. apply (@NoDup_nth_error_inj _ (map pname (params d)) j i (pname p) Hnd).
    + rewrite nth_error_map, Hq, E. reflexivity.
    + rewrite nth_error_map, Hp. reflexivity.
  - intros d' Hd' Hne. unfold getParams. apply map_ext. intros q.
    rewrite lookup_assign.
    destruct (String.eqb_spec (key (name d) (pname p)) (key (name d') (pname q))) as [E|_];
      [|reflexivity].
    exfalso. destruct (Hreg d' Hd') as [Hu' _].
    apply key_inj in E as [E _]; [|assumption|assumption]. congruence.
Qed.

(** *** [stats] over an order

    What [stats] needs of the numbers it compares: on the values that
    satisfy [ok], [<=] is a preorder, [===] is reflexive, and [Math.max]
    returns one of its arguments, not below the other. *)

Section Order.
Local Open Scope js_scope.

Variable ok : T -> Prop.
Hypothesis le_trans : forall a b c, (a <=? b) = true -> (b <=? c) = true -> (a <=? c) = true.
Hypothesis eq_refl_ok : forall a, ok a -> (a === a) = true.
Hypothesis max_ok : forall a b, ok a -> ok b ->
  (Math_max a b = a \/ Math_max a b = b) /\
  (a <=? Math_max a b) = true /\ (b <=? Math_max a b) = true.

Lemma fold_max_ok (ys : list T) :
  forall y, ok y -> Forall ok ys ->
  ok (fold_left Math_max ys y) /\ In (fold_left Math_max ys y) (y :: ys) /\
  forall z, In z (y :: ys) -> (z <=? fold_left Math_max ys y) = true.
Proof.
  induction ys as [|y' ys IH]; intros y Hy Hys; cbn [fold_left].
  - split; [exact Hy|]. split; [left; reflexivity|].
    intros z [<-|[]]. destruct (max_ok Hy Hy) as ([E|E] & H1 & _); rewrite E in H1; exact H1.
  - inversion Hys as [|? ? Hy' Hys']; subst.
    destruct (max_ok Hy Hy') as (Hm & Hl1 & Hl2).
    assert (Hok : ok (Math_max y y')) by (destruct Hm as [->| ->]; assumption).
    destruct (IH _ Hok Hys') as (Hr & Hin & Hle). split; [exact Hr|]. split.
    + destruct Hin as [E|Hin]; [|right; right; exact Hin].
      rewrite <- E. destruct Hm as [->| ->]; [left | right; left]; reflexivity.
    + intros z [<-|[<-|Hz]].
      * eapply le_trans; [exact Hl1|]. apply Hle. left. reflexivity.
      * eapply le_trans; [exact Hl2|]. apply Hle. left. reflexivity.
      * apply Hle. right. exact Hz.
Qed.

Lemma indexOf_first (ys : list T) (v : T) :
  In v ys -> (v === v) = true ->
  exists i y, indexOf ys v = Some i /\ nth_error ys i = Some y /\ (y === v) = true /\
    forall j y', (j < i)%nat -> nth_error ys j = Some y' -> (y' === v) = false.
Proof.
  intros Hin Hv. induction ys as [|y ys IH]; [destruct Hin|]. cbn [indexOf].
  destruct (y === v) eqn:E.
  - exists O, y. repeat split; auto. intros j y' Hj. lia.
  - destruct Hin as [->|Hin]; [congruence|].
    destruct (IH Hin) as (i & y0 & Hi & Hn & Hy & Hf). rewrite Hi.
    exists (S i), y0. repeat split; auto.
    intros [|j] y' Hj Hn'; cbn in Hn'; [congruence|]. apply (Hf j); [lia | exact Hn'].
Qed.

Lemma stats_mode (points : list (Point T)) :
  points <> [] -> Forall (fun p => ok (py p)) points ->
  exists s i p, stats points = Some s /\
    nth_error points i = Some p /\ modeX s = Some (px p) /\ (py p === maxY s) = true /\
    (forall j q, (j < i)%nat -> nth_error points j = Some q -> (py q === maxY s) = false) /\
    (forall q, In q points -> (py q <=? maxY s) = true).
Proof.
  intros Hne Hok. destruct points as [|p0 rest]; [congruence|]. clear Hne.
  inversion Hok as [|? ? Hp0 Hrest]; subst.
  assert (Hrest' : Forall ok (map (@py T) rest)).
  { rewrite Forall_forall in *. intros y Hy. apply in_map_iff in Hy as (q & <- & Hq). auto. }
  destruct (fold_max_ok Hp0 Hrest') as (Hm & Hin & Hle).
  set (m := fold_left Math_max (map (@py T) rest) (py p0)) in *.
  destruct (@indexOf_first (map (@py T) (p0 :: rest)) m Hin (eq_refl_ok Hm))
    as (i & y & Hi & Hn & Hy & Hf).
  rewrite nth_error_map in Hn.
  destruct (nth_error (p0 :: rest) i) as [p|] eqn:Hp; [|discriminate].
  cbn [option_map] in Hn. injection Hn as <-.
  eexists. exists i, p. unfold stats. fold m. rewrite Hi. cbn [maxY modeX].
  split; [reflexivity|]. split; [exact Hp|]. split.
  { rewrite nth_error_map, Hp. reflexivity. }
  split; [exact Hy|]. split.
  - intros j q Hj Hq. apply (Hf j); [exact Hj|]. rewrite nth_error_map, Hq. reflexivity.
  - intros q Hq. apply Hle. change (In (py q) (map (@py T) (p0 :: rest))).
    apply in_map. exact Hq.
Qed.

End Order.

End ExplorerClaims.

(** X16: [stats] finds the mode.  For points that are not all missing and
    whose [y] are numbers (not [NaN]), [maxY] is not below any [y], and
    [modeX] is the [x] of the first point whose [y] equals [maxY]: in exact
    arithmetic, and on doubles. *)
Theorem stats_mode_is_maximum :
  (forall pts : list (Point R), pts <> [] ->
     exists s i p, App.stats pts = Some s /\ nth_error pts i = Some p /\
       App.modeX s = Some (px p) /\ py p = App.maxY s /\
       (forall j q, (j < i)%nat -> nth_error pts j = Some q -> py q <> App.maxY s) /\
       (forall q, In q pts -> (py q <= App.maxY s)%R)) /\
  (forall (M : Binary64.MathImpl) (pts : list (Point float)), pts <> [] ->
     Forall (fun p => is_nan (py p) = false) pts ->
     exists s i p, App.stats (N := JSNumber M) pts = Some s /\ nth_error pts i = Some p /\
       App.modeX s = Some (px p) /\ (py p =? App.maxY s)%float = true /\
       (forall j q, (j < i)%nat -> nth_error pts j = Some q ->
                    (py q =? App.maxY s)%float = false) /\
       (forall q, In q pts -> (py q <=? App.maxY s)%float = true)).
Proof.
  split.
  - intros pts Hne.
    destruct (@stats_mode R RealNumber (fun _ => True)) with (points := pts)
      as (s & i & p & Hs & Hp & Hx & Hy & Hf & Hle); auto.
    + intros a b c Hab Hbc. cbn [le RealNumber] in *. real_tests. apply leb_true. lra.
    + intros a _. apply eqb_true. reflexivity.
    + intros a b _ _. cbn [Math_max le RealNumber]. split; [|split].
      * unfold Rmax. destruct (Rle_dec a b); [right | left]; reflexivity.
      * apply leb_true. apply Rmax_l.
      * apply leb_true. apply Rmax_r.
    + apply Forall_forall. intros; exact I.
    + exists s, i, p. split; [exact Hs|]. split; [exact Hp|]. split; [exact Hx|].
      split; [apply eqb_true; exact Hy|]. split.
      * intros j q Hj Hq. apply eqb_false. exact (Hf j q Hj Hq).
      * intros q Hq. apply leb_true. exact (Hle q Hq).
  - intros M pts Hne Hok.
    apply (@stats_mode float (JSNumber M) (fun a => is_nan a = false)); auto.
    + exact leb_trans_double.
    + exact eqb_refl_double.
    + exact max_double.
Qed.

Lemma stats_mode_is_maximum_witness :
  exists s i p,
    App.stats (N := JS) [ {| px := 0; py := 0.25 |}; {| px := 1; py := 0.5 |};
                          {| px := 2; py := 0.5 |} ]%float = Some s /\
    nth_error [ {| px := 0; py := 0.25 |}; {| px := 1; py := 0.5 |};
                {| px := 2; py := 0.5 |} ]%float i = Some p /\
    App.modeX s = Some (px p) /\ (py p =? App.maxY s)%float = true /\
    (forall j q, (j < i)%nat ->
       nth_error [ {| px := 0; py := 0.25 |}; {| px := 1; py := 0.5 |};
                   {| px := 2; py := 0.5 |} ]%float j = Some q ->
       (py q =? App.maxY s)%float = false) /\
    (forall q, In q [ {| px := 0; py := 0.25 |}; {| px := 1; py := 0.5 |};
                      {| px := 2; py := 0.5 |} ]%float ->
               (py q <=? App.maxY s)%float = true).
Proof.
  apply (proj2 stats_mode_is_maximum Binary64.Math_ref).
  - discriminate.
  - repeat constructor.
Defined.

Section ExplorerDouble.
Variable M : Binary64.MathImpl.
Local Open Scope float_scope.

Lemma fold_max_nan (ys : list float) :
  forall y, In nan (y :: ys) -> fold_left Binary64.max ys y = nan.
Proof.
  induction ys as [|y' ys IH]; intros y Hin; cbn [fold_left].
  - destruct Hin as [->|[]]. reflexivity.
  - apply IH. destruct Hin as [->|[->|Hin]].
    + left. reflexivity.
    + left. apply max_nan_r.
    + right. exact Hin.
Qed.

Lemma eqb_nan_r (y : float) : (y =? nan) = false.
Proof.
  rewrite FloatAxioms.eqb_spec. unfold SFeqb.
  change (Prim2SF nan) with S754_nan. destruct (Prim2SF y); reflexivity.
Qed.

Lemma indexOf_nan (ys : list float) : App.indexOf (N := JSNumber M) ys nan = None.
Proof.
  induction ys as [|y ys IH]; cbn [App.indexOf]; [reflexivity|].
  cbn [strict_eq JSNumber]. rewrite eqb_nan_r, IH. reflexivity.
Qed.

End ExplorerDouble.

(** X17: one [NaN] among the [y] spoils [stats]: [maxY] is [NaN] and [modeX]
    is [undefined], whatever the other points are. *)
Theorem stats_nan (M : Binary64.MathImpl) (pts : list (Point float)) :
  Exists (fun p => is_nan (py p) = true) pts ->
  App.stats (N := JSNumber M) pts = Some {| App.maxY := nan; App.modeX := None |}.
Proof.
  intros Hex.
  assert (Hin : In nan (map (@py float) pts)).
  { apply Exists_exists in Hex as (p & Hp & Hn). apply is_nan_true in Hn.
    rewrite <- Hn. apply in_map. exact Hp. }
  destruct pts as [|p0 rest]; [destruct Hin|].
  unfold App.stats. cbn [Math_max JSNumber].
  rewrite (@fold_max_nan (map (@py float) rest) (py p0) Hin), indexOf_nan. reflexivity.
Qed.

Lemma stats_nan_witness :
  App.stats (N := JS) [ {| px := 0; py := nan |}; {| px := 1; py := 0.5 |} ]%float
  = Some {| App.maxY := nan; App.modeX := None |}.
Proof. apply stats_nan. constructor. reflexivity. Defined.

(** X18: for a continuous family the chart always has its mode marker.
    Whatever the parameter vector, [computePoints] with the default
    [numPoints] returns 301 points, [stats] is not [null], [modeX] is the [x]
    of one of the points and no point has a [y] above [maxY]. *)
Theorem mode_of_continuous_family (M : Binary64.MathImpl) (d : Distribution float)
    (ps : list float) :
  kind d = continuous ->
  exists pts s i p,
    computePoints (N := JSNumber M) 301 d ps defaultNumPoints = Some pts /\
    List.length pts = 301%nat /\
    App.stats (N := JSNumber M) pts = Some s /\
    nth_error pts i = Some p /\ App.modeX s = Some (px p) /\
    (py p =? App.maxY s)%float = true /\
    (forall q, In q pts -> (py q <=? App.maxY s)%float = true).
Proof.
  intros Hk.
  destruct (@computePoints_continuous_length_double M d ps 300 301 Hk)
    as (pts & E & Hlen); [cbn; lia | lia |].
  change (Binary64.of_Z (Z.of_nat 300)) with (defaultNumPoints (N := JSNumber M)) in E.
  assert (Hfin : Forall (fun p => is_nan (py p) = false) pts).
  { pose proof (@continuous_points_finite float (JSNumber M) d ps _ _ _ eq_refl Hk E) as H.
    rewrite Forall_forall in *. intros p Hp. apply is_finite_not_nan. exact (H p Hp). }
  assert (Hne : pts <> []) by (intros ->; discriminate).
  destruct (@stats_mode float (JSNumber M) (fun a => is_nan a = false)
              leb_trans_double eqb_refl_double max_double pts Hne Hfin)
    as (s & i & p & Hs & Hp & Hx & Hy & _ & Hle).
  exists pts, s, i, p. auto 10.
Qed.

Lemma mode_of_continuous_family_witness :
  exists pts s i p,
    computePoints (N := JS) 301 Normal [0; 1]%float defaultNumPoints = Some pts /\
    List.length pts = 301%nat /\
    App.stats (N := JS) pts = Some s /\
    nth_error pts i = Some p /\ App.modeX s = Some (px p) /\
    (py p =? App.maxY s)%float = true /\
    (forall q, In q pts -> (py q <=? App.maxY s)%float = true).
Proof. apply (mode_of_continuous_family Binary64.Math_ref). reflexivity. Defined.

Lemma getParams_after_change_witness :
  nth_error (App.getParams (App.handleParamChange (Beta (N := JS)) "alpha" 3%float []) Beta) 0
  = Some 3%float /\
  (forall j, j <> 0%nat ->
     nth_error (App.getParams (App.handleParamChange (Beta (N := JS)) "alpha" 3%float []) Beta) j
     = nth_error (App.getParams [] (Beta (N := JS))) j) /\
  (forall d', In d' (DISTRIBUTIONS (N := JS)) -> name d' <> name (Beta (N := JS)) ->
     App.getParams (App.handleParamChange (Beta (N := JS)) "alpha" 3%float []) d'
     = App.getParams [] d').
Proof.
  apply (@getParams_after_change float JS Beta 0 (P "alpha" "α (alpha)" 0.1 10 0.1 2)).
  - unfold DISTRIBUTIONS. cbn [In]. right. left. reflexivity.
  - reflexivity.
Defined.

(** X19: with nothing stored, [getParams] returns the defaults.  The
    defaults lie within the declared ranges for every family but
    DiscreteUniform, whose default [lower = 1] is above its [max = 0]: in
    exact arithmetic, and on doubles. *)
Theorem getParams_defaults_in_range :
  Forall (fun d : Distribution R =>
            App.getParams [] d = map (fun p => Q2R (default p)) (params d) /\
            in_range (params d) (App.getParams [] d)
            = negb (String.eqb (name d) "DiscreteUniform"))
         DISTRIBUTIONS /\
  forall M : Binary64.MathImpl,
  Forall (fun d : Distribution float =>
            App.getParams (N := JSNumber M) [] d
            = map (fun p => Binary64.of_Q (default p)) (params d) /\
            in_range (N := JSNumber M) (params d) (App.getParams (N := JSNumber M) [] d)
            = negb (String.eqb (name d) "DiscreteUniform"))
         DISTRIBUTIONS.
Proof.
  split.
  - unfold DISTRIBUTIONS.
    repeat (constructor; [split; [reflexivity|];
      cbv [App.getParams App.lookup map params in_range default min max P name
           Normal Beta Gamma HalfNormal Exponential Uniform StudentT LogNormal Cauchy
           Laplace Weibull Triangular SkewNormal InverseGamma Logistic Binomial Poisson
           NegativeBinomial Geometric DiscreteUniform Bernoulli];
      real_lits;
      repeat match goal with
      | |- context [Exact.leb ?a ?b] =>
          first [ replace (Exact.leb a b) with true by (symmetry; apply leb_true; lra)
                | replace (Exact.leb a b) with false by (symmetry; apply leb_false; lra) ]
      end; reflexivity |]).
    constructor.
  - intros M. unfold DISTRIBUTIONS.
    repeat (constructor; [split; reflexivity |]). constructor.
Qed.

(** X20: the families are found by their names.  [find] returns the family
    for each registered name (no two families share one), the name selected
    at the start is registered, and the two lists of the selector hold every
    family once, in the order of the registry. *)
Theorem registry_lookup (T : Type) (N : Number T) :
  Forall (fun d : Distribution T => App.selected (name d) = Some d) DISTRIBUTIONS /\
  App.selected "Beta" = Some (Beta (N := N)) /\
  (App.CONTINUOUS ++ App.DISCRETE)%list = DISTRIBUTIONS (N := N).
Proof.
  split; [|split; reflexivity].
  unfold DISTRIBUTIONS. repeat (constructor; [reflexivity|]). constructor.
Qed.

(** ** The tic-tac-toe game *)

Section GameFacts.
Import Game.
Local Open Scope nat_scope.

Lemma get_set (b : list value) (i j : nat) (v : value) :
  get (set b i v) j = if Nat.eqb i j then v else get b j.
Proof.
  unfold get. revert b j. induction i as [|i IH]; intros [|x b] [|j]; cbn; try reflexivity.
  - destruct j; reflexivity.
  - rewrite IH. destruct (Nat.eqb i j); [reflexivity | destruct j; reflexivity].
  - apply IH.
Qed.

Lemma length_set (b : list value) (i : nat) (v : value) :
  i < List.length b -> List.length (set b i v) = List.length b.
Proof.
  revert b. induction i as [|i IH]; intros [|x b] Hi; cbn in *; try lia.
  rewrite IH by lia. reflexivity.
Qed.

(** *** Winner of an arbitrary array *)

Lemma value_eq_eq (v w : value) : value_eq v w = true <-> v = w.
Proof.
  destruct v, w; cbn; split; intros H; try discriminate; try reflexivity.
  - apply String.eqb_eq in H. congruence.
  - injection H as ->. apply String.eqb_refl.
Qed.

Lemma complete_spec (sq : list value) (a b c : nat) :
  complete sq (a, b, c) = true <->
  truthy (get sq a) = true /\ get sq b = get sq a /\ get sq c = get sq a.
Proof.
  unfold complete. rewrite !andb_true_iff, !value_eq_eq. intuition congruence.
Qed.

Lemma winner_loop_spec (ls : list (nat * nat * nat)) (sq : list value) :
  (forall l, In l ls -> complete sq l = false) /\ winner_loop ls sq = Null \/
  exists ls1 a b c ls2, ls = ls1 ++ (a, b, c) :: ls2 /\
    (forall l, In l ls1 -> complete sq l = false) /\
    complete sq (a, b, c) = true /\ winner_loop ls sq = get sq a.
Proof.
  induction ls as [|[[a b] c] ls IH].
  - left. split; [intros l [] | reflexivity].
  - cbn [winner_loop]. fold (complete sq (a, b, c)).
    destruct (complete sq (a, b, c)) eqn:E.
    + right. exists [], a, b, c, ls. repeat split; auto. intros l [].
    + destruct IH as [[Hn Hw] | (ls1 & a' & b' & c' & ls2 & -> & Hn & Hc & Hw)].
      * left. split; [|exact Hw]. intros l [<-|Hl]; auto.
      * right. exists ((a, b, c) :: ls1), a', b', c', ls2. repeat split; auto.
        intros l [<-|Hl]; auto.
Qed.

Lemma calculateWinner_falsy (sq : list value) :
  truthy (calculateWinner sq) = false <-> forall l, In l lines -> complete sq l = false.
Proof.
  unfold calculateWinner.
  destruct (winner_loop_spec lines sq) as [[Hn Hw] | (ls1 & a & b & c & ls2 & E & Hn & Hc & Hw)].
  - rewrite Hw. cbn. tauto.
  - rewrite Hw. apply complete_spec in Hc as Hc'. destruct Hc' as (Ht & _).
    rewrite Ht. split; [discriminate|]. intros H.
    rewrite H in Hc; [discriminate|]. rewrite E. apply in_elt.
Qed.

(** *** The states of a game *)

Lemma place_app (cs1 cs2 : list nat) (k : nat) (b : list value) :
  place (cs1 ++ cs2) k b = place cs2 (k + List.length cs1) (place cs1 k b).
Proof.
  revert k b. induction cs1 as [|c cs1 IH]; intros k b; cbn.
  - rewrite Nat.add_0_r. reflexivity.
  - rewrite IH. f_equal. lia.
Qed.

Lemma board_of_app (cs1 cs2 : list nat) :
  board_of (cs1 ++ cs2) = place cs2 (List.length cs1) (board_of cs1).
Proof. unfold board_of. rewrite place_app. reflexivity. Qed.

Lemma board_of_snoc (cs : list nat) (c : nat) :
  board_of (cs ++ [c]) = set (board_of cs) c (mark (List.length cs)).
Proof. rewrite board_of_app. reflexivity. Qed.

Lemma get_place_other (cs : list nat) (k : nat) (b : list value) (i : nat) :
  ~ In i cs -> get (place cs k b) i = get b i.
Proof.
  revert k b. induction cs as [|c cs IH]; intros k b Hi; cbn [place]; [reflexivity|].
  rewrite IH by (intros H; apply Hi; right; exact H).
  rewrite get_set. destruct (Nat.eqb_spec c i); [|reflexivity].
  exfalso. apply Hi. left. exact e.
Qed.

Lemma length_place (cs : list nat) (k : nat) (b : list value) :
  Forall (fun c => c < List.length b) cs -> List.length (place cs k b) = List.length b.
Proof.
  revert k b. induction cs as [|c cs IH]; intros k b H; cbn [place]; [reflexivity|].
  inversion H as [|? ? Hc Hcs]; subst.
  rewrite IH; rewrite length_set by exact Hc; [reflexivity | exact Hcs].
Qed.

Lemma length_board_of (cs : list nat) :
  Forall (fun c => c < 9) cs -> List.length (board_of cs) = 9.
Proof. intros H. unfold board_of. rewrite length_place; [reflexivity | exact H]. Qed.

Lemma get_empty (i : nat) : truthy (get (repeat Null 9) i) = false.
Proof. do 9 (destruct i as [|i]; [reflexivity|]). destruct i; reflexivity. Qed.

Lemma truthy_mark (k : nat) : truthy (mark k) = true.
Proof. unfold mark. destruct (Nat.even k); reflexivity. Qed.

(** A square is marked exactly when it has been played. *)
Lemma truthy_board_of (cs : list nat) (i : nat) :
  truthy (get (board_of cs) i) = true <-> In i cs.
Proof.
  induction cs as [|c cs IH] using rev_ind.
  - unfold board_of; cbn [place]. rewrite get_empty. split; [discriminate | intros []].
  - rewrite board_of_snoc, get_set, in_app_iff. cbn [In].
    destruct (Nat.eqb_spec c i).
    + rewrite truthy_mark. tauto.
    + rewrite IH. tauto.
Qed.

(** The square played at move [p] holds the mark of move [p]. *)
Lemma get_board_of (cs : list nat) (p i : nat) :
  NoDup cs -> nth_error cs p = Some i -> get (board_of cs) i = mark p.
Proof.
  intros Hnd Hp. apply nth_error_split in Hp as (l1 & l2 & -> & <-).
  apply NoDup_remove_2 in Hnd.
  replace (l1 ++ i :: l2) with ((l1 ++ [i]) ++ l2) by (rewrite <- app_assoc; reflexivity).
  rewrite board_of_app, get_place_other, board_of_snoc, get_set, Nat.eqb_refl; [reflexivity|].
  intros H. apply Hnd. apply in_or_app. right. exact H.
Qed.

Lemma firstn_seq_le (n a len : nat) : n <= len -> firstn n (seq a len) = seq a n.
Proof.
  revert a len. induction n as [|n IH]; intros a [|len] H; cbn; try reflexivity; try lia.
  rewrite IH by lia. reflexivity.
Qed.

Lemma Forall_firstn_of (A : Type) (P : A -> Prop) (n : nat) (l : list A) :
  Forall P l -> Forall P (firstn n l).
Proof.
  revert n. induction l as [|x l IH]; intros [|n] H; cbn; try constructor.
  - inversion H; assumption.
  - apply IH. inversion H; assumption.
Qed.

Lemma even_mod2 (n : nat) : Nat.eqb (n mod 2) 0 = Nat.even n.
Proof.
  rewrite (Nat.div_mod_eq n 2) at 2.
  rewrite Nat.add_comm, Nat.even_add_mul_2.
  pose proof (Nat.mod_upper_bound n 2 ltac:(lia)) as H.
  destruct (n mod 2) as [|[|m]]; [reflexivity | reflexivity | lia].
Qed.

Lemma firstn_firstn_le (A : Type) (l : list A) (k s : nat) :
  k <= s -> firstn k (firstn s l) = firstn k l.
Proof. intros H. rewrite firstn_firstn. f_equal. lia. Qed.

Lemma boards_firstn (cs : list nat) (s : nat) :
  s <= List.length cs -> firstn (s + 1) (boards cs) = boards (firstn s cs).
Proof.
  intros Hs. unfold boards. rewrite firstn_map, firstn_seq_le by lia.
  rewrite length_firstn.
  replace (Nat.min s (List.length cs)) with s by lia.
  replace (s + 1) with (S s) by lia.
  apply map_ext_in. intros k Hk. apply in_seq in Hk.
  rewrite firstn_firstn_le by lia. reflexivity.
Qed.

Lemma boards_snoc (cs : list nat) (c : nat) :
  boards (cs ++ [c]) = boards cs ++ [ {| squares := board_of (cs ++ [c]) |} ].
Proof.
  unfold boards. rewrite length_app. cbn [List.length].
  replace (S (List.length cs + 1)) with (S (List.length cs) + 1) by lia.
  rewrite seq_app, map_app. f_equal.
  - apply map_ext_in. intros k Hk. apply in_seq in Hk.
    rewrite firstn_app. replace (k - List.length cs) with 0 by lia.
    cbn [firstn]. rewrite app_nil_r. reflexivity.
  - cbn [seq map]. rewrite Nat.add_0_l. f_equal. f_equal.
    rewrite firstn_all2; [reflexivity|]. rewrite length_app. cbn. lia.
Qed.

Lemma boards_nth (cs : list nat) (k : nat) :
  k <= List.length cs ->
  nth_error (boards cs) k = Some {| squares := board_of (firstn k cs) |}.
Proof.
  intros Hk. unfold boards.
  rewrite nth_error_map, nth_error_seq by lia.
  destruct (Nat.ltb_spec k (S (List.length cs))); [reflexivity | lia].
Qed.

Lemma length_boards (cs : list nat) : List.length (boards cs) = S (List.length cs).
Proof. unfold boards. rewrite length_map, length_seq. reflexivity. Qed.

Lemma legal_firstn (cs : list nat) (s : nat) : legal cs -> legal (firstn s cs).
Proof.
  intros (Hnd & Hlt & Hw). repeat split.
  - rewrite <- (firstn_skipn s cs) in Hnd. apply NoDup_app_remove_r in Hnd. exact Hnd.
  - apply Forall_firstn_of. exact Hlt.
  - intros k Hk. rewrite length_firstn in Hk.
    rewrite firstn_firstn_le by lia. apply Hw. lia.
Qed.

Lemma legal_snoc (cs : list nat) (c : nat) :
  legal cs -> c < 9 -> truthy (get (board_of cs) c) = false ->
  truthy (calculateWinner (board_of cs)) = false -> legal (cs ++ [c]).
Proof.
  intros (Hnd & Hlt & Hw) Hc Hfree Hno. repeat split.
  - apply NoDup_app; [exact Hnd | constructor; [intros [] | constructor] | ].
    intros x Hx [<-|[]]. apply truthy_board_of in Hx. congruence.
  - apply Forall_app. split; [exact Hlt | constructor; [exact Hc | constructor]].
  - intros k Hk. rewrite length_app in Hk. cbn in Hk.
    rewrite firstn_app.
    destruct (Nat.eq_dec k (List.length cs)) as [->|Hne].
    + rewrite firstn_all, Nat.sub_diag. cbn [firstn]. rewrite app_nil_r. exact Hno.
    + replace (k - List.length cs) with 0 by lia. cbn [firstn]. rewrite app_nil_r.
      apply Hw. lia.
Qed.

Lemma Inv_initial : Inv initial.
Proof.
  exists []. split; [|split; [|split]].
  - split; [constructor | split; [constructor | intros k Hk; cbn in Hk; lia]].
  - reflexivity.
  - cbn. lia.
  - reflexivity.
Qed.

Lemma Inv_handle (st : GameState) (e : event) :
  Inv st -> offered st e = true -> exists st', handle e st = Ok st' /\ Inv st'.
Proof.
  intros (cs & Hl & Hh & Hs & Hx) Ho. destruct e as [i | idx]; cbn [handle offered] in *.
  - apply Nat.ltb_lt in Ho. unfold handleClick.
    rewrite Hh, boards_firstn by exact Hs.
    set (cs0 := firstn (stepNumber st) cs).
    assert (Hlen : List.length cs0 = stepNumber st).
    { unfold cs0. rewrite length_firstn. lia. }
    rewrite length_boards, Nat.sub_succ, Nat.sub_0_r.
    rewrite boards_nth by lia. rewrite firstn_all. cbn [squares].
    destruct (truthy (calculateWinner (board_of cs0))) eqn:Hw; cbn [orb].
    { exists st. split; [reflexivity|]. exists cs. auto. }
    destruct (truthy (get (board_of cs0) i)) eqn:Hf.
    { exists st. split; [reflexivity|]. exists cs. auto. }
    eexists. split; [reflexivity|].
    exists (cs0 ++ [i]). cbn [history stepNumber xIsNext]. split; [|split; [|split]].
    + apply legal_snoc; auto. apply legal_firstn. exact Hl.
    + rewrite boards_snoc, board_of_snoc. do 4 f_equal.
      unfold mark. rewrite Hlen, Hx. reflexivity.
    + rewrite length_app. cbn. lia.
    + rewrite Hx, Hlen, Nat.even_succ, <- Nat.negb_even. reflexivity.
  - apply Nat.ltb_lt in Ho. eexists. split; [reflexivity|].
    exists cs. unfold jumpTo. cbn [history stepNumber xIsNext]. split; [|split; [|split]]; auto.
    + rewrite Hh, length_boards in Ho. lia.
    + apply even_mod2.
Qed.

Lemma Inv_play (es : list event) :
  forall st, Inv st -> all_offered es st = true ->
  exists st', play es st = Ok st' /\ Inv st'.
Proof.
  induction es as [|e es IH]; intros st Hi Ho; cbn [play all_offered] in *.
  - exists st. auto.
  - apply andb_true_iff in Ho as [Ho1 Ho2].
    destruct (Inv_handle e Hi Ho1) as (st' & E & Hi').
    rewrite E in *. apply IH; assumption.
Qed.

End GameFacts.

Section GameClaims.
Import Game.
Local Open Scope nat_scope.

Lemma get_empty_Null (i : nat) : i < 9 -> get (repeat Null 9) i = Null.
Proof. intros H. do 9 (destruct i as [|i]; [reflexivity|]). lia. Qed.

Lemma get_free (cs : list nat) (c : nat) :
  c < 9 -> ~ In c cs -> get (board_of cs) c = Null.
Proof.
  intros Hc Hn. unfold board_of. rewrite get_place_other by exact Hn.
  apply get_empty_Null. exact Hc.
Qed.

Lemma count_set (s t : string) (b : list value) (i : nat) :
  i < List.length b -> get b i = Null ->
  occurrences (Str s) (set b i (Str t)) = occurrences (Str s) b + (if String.eqb s t then 1 else 0).
Proof.
  unfold occurrences, get. revert b. induction i as [|i IH]; intros [|x b] Hi Hg; cbn in Hi; try lia.
  - cbn in Hg. subst x. cbn. destruct (String.eqb s t); cbn; lia.
  - cbn [set filter nth] in *. destruct (value_eq (Str s) x); cbn [List.length];
      rewrite IH by (assumption || lia); lia.
Qed.

Lemma Forall_set (P : value -> Prop) (b : list value) (i : nat) (v : value) :
  i < List.length b -> Forall P b -> P v -> Forall P (set b i v).
Proof.
  revert b. induction i as [|i IH]; intros [|x b] Hi Hb Hv; cbn in Hi; try lia;
    inversion Hb; subst; cbn [set]; constructor; auto.
  apply IH; auto. lia.
Qed.

Lemma NoDup_firstn (cs : list nat) (k : nat) : NoDup cs -> NoDup (firstn k cs).
Proof.
  intros H. rewrite <- (firstn_skipn k cs) in H. apply NoDup_app_remove_r in H. exact H.
Qed.

Lemma board_of_counts (cs : list nat) :
  NoDup cs -> Forall (fun c => c < 9) cs ->
  Forall (fun v => v = Null \/ v = Str "X" \/ v = Str "O") (board_of cs) /\
  occurrences (Str "X") (board_of cs) + occurrences (Str "O") (board_of cs) = List.length cs /\
  occurrences (Str "X") (board_of cs)
  = occurrences (Str "O") (board_of cs) + (if Nat.even (List.length cs) then 0 else 1).
Proof.
  induction cs as [|c cs IH] using rev_ind; intros Hnd Hlt.
  - split; [|split; reflexivity]. unfold board_of. cbn. repeat constructor; left; reflexivity.
  - apply Forall_app in Hlt as [Hlt Hc]. inversion Hc as [|? ? Hc9 _]; subst.
    assert (Hfree : ~ In c cs).
    { intros H. apply NoDup_remove_2 in Hnd. apply Hnd. rewrite app_nil_r. exact H. }
    apply NoDup_app_remove_r in Hnd.
    destruct (IH Hnd Hlt) as (Hsq & Hsum & Hdiff).
    rewrite board_of_snoc. unfold mark. rewrite length_app. cbn [List.length].
    replace (List.length cs + 1) with (S (List.length cs)) by lia.
    rewrite Nat.even_succ, <- Nat.negb_even.
    rewrite !count_set
      by (try (rewrite length_board_of by exact Hlt; exact Hc9); apply get_free; assumption).
    split; [|destruct (Nat.even (List.length cs)); cbn; lia].
    apply Forall_set; [rewrite length_board_of by exact Hlt; exact Hc9 | exact Hsq |].
    destruct (Nat.even (List.length cs)); [right; left | right; right]; reflexivity.
Qed.

Lemma legal_length (cs : list nat) :
  NoDup cs -> Forall (fun c => c < 9) cs -> List.length cs <= 9.
Proof.
  intros Hnd Hlt.
  change 9 with (List.length (seq 0 9)).
  apply NoDup_incl_length; [exact Hnd|].
  intros c Hc. apply in_seq. rewrite Forall_forall in Hlt. apply Hlt in Hc. lia.
Qed.

Lemma boards_entry (cs : list nat) (k : nat) (e : Entry) :
  nth_error (boards cs) k = Some e ->
  k <= List.length cs /\ squares e = board_of (firstn k cs).
Proof.
  intros Hk.
  assert (Hlt : k < List.length (boards cs)) by (apply nth_error_Some; congruence).
  rewrite length_boards in Hlt.
  rewrite boards_nth in Hk by lia. injection Hk as <-. split; [lia | reflexivity].
Qed.

Lemma firstn_succ_snoc (cs : list nat) (k : nat) :
  k < List.length cs -> exists c, nth_error cs k = Some c /\ firstn (S k) cs = firstn k cs ++ [c].
Proof.
  revert k. induction cs as [|x cs IH]; intros k Hk; cbn in Hk; [lia|].
  destruct k as [|k].
  - exists x. split; reflexivity.
  - destruct (IH k ltac:(lia)) as (c & Hc & E). exists c. split; [exact Hc|].
    cbn [firstn] in *. rewrite E. reflexivity.
Qed.

(** X21: the handlers and [render] raise no [TypeError]: after any events that
    the page offered, [history] is not empty and [stepNumber] points into
    it. *)
Theorem game_never_raises (es : list event) :
  all_offered es initial = true ->
  exists st, play es initial = Ok st /\
             stepNumber st < List.length (history st) /\
             exists text, status st = Ok text.
Proof.
  intros Ho. destruct (Inv_play es Inv_initial Ho) as (st & E & cs & Hl & Hh & Hs & Hx).
  exists st. split; [exact E|]. split.
  - rewrite Hh, length_boards. lia.
  - unfold status. rewrite Hh, boards_nth by exact Hs.
    cbv zeta. destruct (truthy _); eexists; reflexivity.
Qed.

Lemma game_never_raises_witness :
  exists st, play [Click 4; Click 0; GoTo 1; Click 8; Click 8; GoTo 0] initial = Ok st /\
             stepNumber st < List.length (history st) /\
             exists text, status st = Ok text.
Proof. apply game_never_raises. reflexivity. Defined.

(** X22: the history is a game played in turn.  It starts from nine [null]
    squares; each board is the one before it with one [null] square set,
    to ["X"] after an even number of moves and to ["O"] after an odd one, and
    the board it was played on had no winner. *)
Theorem game_history_is_a_game (es : list event) :
  all_offered es initial = true ->
  exists st, play es initial = Ok st /\
    nth_error (history st) 0 = Some {| squares := repeat Null 9 |} /\
    forall k e e', nth_error (history st) k = Some e ->
                   nth_error (history st) (S k) = Some e' ->
      truthy (calculateWinner (squares e)) = false /\
      exists i, i < 9 /\ get (squares e) i = Null /\
        squares e' = set (squares e) i (Str (if Nat.even k then "X" else "O")).
Proof.
  intros Ho.
  destruct (Inv_play es Inv_initial Ho) as (st & E & cs & (Hnd & Hlt & Hw) & Hh & Hs & Hx).
  exists st. split; [exact E|]. rewrite Hh. split.
  - rewrite boards_nth by lia. reflexivity.
  - intros k e e' Hk Hk'.
    apply boards_entry in Hk as (_ & ->). apply boards_entry in Hk' as (Hlen & ->).
    split; [apply Hw; lia|].
    destruct (@firstn_succ_snoc cs k ltac:(lia)) as (c & Hc & Es).
    exists c. rewrite Es, board_of_snoc, length_firstn.
    replace (Nat.min k (List.length cs)) with k by lia.
    rewrite Forall_forall in Hlt. split; [|split; [|reflexivity]].
    + apply Hlt. eapply nth_error_In. exact Hc.
    + apply get_free; [apply Hlt; eapply nth_error_In; exact Hc|].
      pose proof (NoDup_firstn (S k) Hnd) as Hn. rewrite Es in Hn.
      apply NoDup_remove_2 in Hn. rewrite app_nil_r in Hn. exact Hn.
Qed.

Lemma game_history_is_a_game_witness :
  exists st, play [Click 4; Click 0; GoTo 1; Click 8; Click 8; GoTo 0] initial = Ok st /\
    nth_error (history st) 0 = Some {| squares := repeat Null 9 |} /\
    forall k e e', nth_error (history st) k = Some e ->
                   nth_error (history st) (S k) = Some e' ->
      truthy (calculateWinner (squares e)) = false /\
      exists i, i < 9 /\ get (squares e) i = Null /\
        squares e' = set (squares e) i (Str (if Nat.even k then "X" else "O")).
Proof. apply game_history_is_a_game. reflexivity. Defined.

(** X23: every board of the history has nine squares, each [null], ["X"] or
    ["O"]; the board at index [k] holds [k] marks, as many ["X"] as ["O"]
    when [k] is even and one more ["X"] when [k] is odd.  [xIsNext] is true
    exactly when [stepNumber] is even, and a history has at most ten
    boards. *)
Theorem game_turn_order (es : list event) :
  all_offered es initial = true ->
  exists st, play es initial = Ok st /\
    xIsNext st = Nat.even (stepNumber st) /\
    List.length (history st) <= 10 /\
    forall k e, nth_error (history st) k = Some e ->
      List.length (squares e) = 9 /\
      Forall (fun v => v = Null \/ v = Str "X" \/ v = Str "O") (squares e) /\
      occurrences (Str "X") (squares e) + occurrences (Str "O") (squares e) = k /\
      occurrences (Str "X") (squares e)
      = occurrences (Str "O") (squares e) + (if Nat.even k then 0 else 1).
Proof.
  intros Ho.
  destruct (Inv_play es Inv_initial Ho) as (st & E & cs & (Hnd & Hlt & Hw) & Hh & Hs & Hx).
  exists st. split; [exact E|]. split; [exact Hx|]. split.
  - rewrite Hh, length_boards. pose proof (legal_length Hnd Hlt). lia.
  - intros k e Hk. rewrite Hh in Hk. apply boards_entry in Hk as (Hle & ->).
    pose proof (NoDup_firstn k Hnd) as Hnd'.
    assert (Hlt' : Forall (fun c => c < 9) (firstn k cs)) by (apply Forall_firstn_of; exact Hlt).
    destruct (board_of_counts Hnd' Hlt') as (Hsq & Hsum & Hdiff).
    rewrite length_firstn in Hsum, Hdiff.
    replace (Nat.min k (List.length cs)) with k in * by lia.
    split; [apply length_board_of; exact Hlt' | auto].
Qed.

Lemma game_turn_order_witness :
  exists st, play [Click 4; Click 0; GoTo 1; Click 8; Click 8; GoTo 0] initial = Ok st /\
    xIsNext st = Nat.even (stepNumber st) /\
    List.length (history st) <= 10 /\
    forall k e, nth_error (history st) k = Some e ->
      List.length (squares e) = 9 /\
      Forall (fun v => v = Null \/ v = Str "X" \/ v = Str "O") (squares e) /\
      occurrences (Str "X") (squares e) + occurrences (Str "O") (squares e) = k /\
      occurrences (Str "X") (squares e)
      = occurrences (Str "O") (squares e) + (if Nat.even k then 0 else 1).
Proof. apply game_turn_order. reflexivity. Defined.

(** X24: [calculateWinner] on any array: it returns [null] when no line holds
    three times the same truthy value, and otherwise the value of such a
    line. *)
Theorem calculateWinner_spec (sq : list value) :
  (calculateWinner sq = Null /\
   forall a b c, In (a, b, c) lines ->
     ~ (truthy (get sq a) = true /\ get sq b = get sq a /\ get sq c = get sq a)) \/
  (exists a b c, In (a, b, c) lines /\
     truthy (get sq a) = true /\ get sq b = get sq a /\ get sq c = get sq a /\
     calculateWinner sq = get sq a).
Proof.
  unfold calculateWinner.
  destruct (winner_loop_spec lines sq) as [[Hn Hw] | (ls1 & a & b & c & ls2 & E & Hn & Hc & Hw)].
  - left. split; [exact Hw|]. intros a b c Hl Hc. apply complete_spec in Hc.
    rewrite Hn in Hc by exact Hl. discriminate.
  - right. exists a, b, c. apply complete_spec in Hc as (H1 & H2 & H3).
    repeat split; auto. rewrite E. apply in_elt.
Qed.

(** X25: only the last board of a history can have a winner, and the winner
    is the player who made the last move: ["X"] on a board of odd index,
    ["O"] on a board of even index. *)
Theorem game_winner_moved_last (es : list event) :
  all_offered es initial = true ->
  exists st, play es initial = Ok st /\
    forall k e, nth_error (history st) k = Some e ->
      truthy (calculateWinner (squares e)) = true ->
      S k = List.length (history st) /\
      calculateWinner (squares e) = Str (if Nat.even k then "O" else "X").
Proof.
  intros Ho.
  destruct (Inv_play es Inv_initial Ho) as (st & E & cs & (Hnd & Hlt & Hw) & Hh & Hs & Hx).
  exists st. split; [exact E|]. rewrite Hh. intros k e Hk Ht.
  apply boards_entry in Hk as (Hle & Eq). rewrite Eq in *. clear Eq e.
  assert (Hk : k = List.length cs).
  { destruct (Nat.eq_dec k (List.length cs)) as [|Hne]; [assumption|].
    rewrite Hw in Ht by lia. discriminate. }
  split; [rewrite length_boards; lia|].
  subst k. rewrite firstn_all in *. clear Hle.
  destruct cs as [|c cs _] using rev_ind; [discriminate|].
  rewrite length_app in *. cbn [List.length] in *.
  assert (Hprev : truthy (calculateWinner (board_of cs)) = false).
  { specialize (Hw (List.length cs) ltac:(lia)).
    rewrite firstn_app, Nat.sub_diag, firstn_all in Hw. cbn [firstn] in Hw.
    rewrite app_nil_r in Hw. exact Hw. }
  rewrite calculateWinner_falsy in Hprev.
  rewrite board_of_snoc in *.
  replace (Str (if Nat.even (List.length cs + 1) then "O" else "X"))
    with (mark (List.length cs))
    by (unfold mark; rewrite Nat.add_1_r, Nat.even_succ, <- Nat.negb_even;
        destruct (Nat.even (List.length cs)); reflexivity).
  unfold calculateWinner in *.
  destruct (winner_loop_spec lines (set (board_of cs) c (mark (List.length cs))))
    as [[_ Hnull] | (ls1 & a & b & d & ls2 & El & _ & Hc & Hres)].
  { rewrite Hnull in Ht. discriminate. }
  assert (Hl : In (a, b, d) lines) by (rewrite El; apply in_elt).
  apply complete_spec in Hc as (Hta & Hb & Hd).
  rewrite Hres.
  destruct (Nat.eq_dec c a) as [->|Hca];
    [rewrite get_set, Nat.eqb_refl; reflexivity|].
  destruct (Nat.eq_dec c b) as [->|Hcb];
    [rewrite <- Hb, get_set, Nat.eqb_refl; reflexivity|].
  destruct (Nat.eq_dec c d) as [->|Hcd];
    [rewrite <- Hd, get_set, Nat.eqb_refl; reflexivity|].
  exfalso. specialize (Hprev _ Hl).
  apply Nat.eqb_neq in Hca, Hcb, Hcd.
  repeat rewrite get_set in Hta. repeat rewrite get_set in Hb. repeat rewrite get_set in Hd.
  rewrite ?Hca, ?Hcb, ?Hcd in *.
  assert (complete (board_of cs) (a, b, d) = true) by (apply complete_spec; auto).
  congruence.
Qed.

Lemma game_winner_moved_last_witness :
  exists st, play [Click 0; Click 3; Click 1; Click 4; Click 2; Click 5] initial = Ok st /\
    forall k e, nth_error (history st) k = Some e ->
      truthy (calculateWinner (squares e)) = true ->
      S k = List.length (history st) /\
      calculateWinner (squares e) = Str (if Nat.even k then "O" else "X").
Proof. apply game_winner_moved_last. reflexivity. Defined.

End GameClaims.

(** ** The todo list *)

Section TodoClaims.
Import Todos.
Local Open Scope nat_scope.

(** X26: toggling a todo twice gives the list back, and a toggle keeps the
    number of todos, their ids and their order. *)
Theorem toggleTodo_involutive (i : string) (todos : list Todo) :
  toggleTodo i (toggleTodo i todos) = todos /\
  map id (toggleTodo i todos) = map id todos.
Proof.
  split.
  - unfold toggleTodo. rewrite map_map. rewrite <- (map_id todos) at 2.
    apply map_ext. intros t. destruct (String.eqb (id t) i) eqn:E; cbn [id].
    + rewrite E. destruct t as [ti tt tc tp tg td ta]. cbn. rewrite negb_involutive.
      reflexivity.
    + rewrite E. reflexivity.
  - unfold toggleTodo. rewrite map_map. apply map_ext. intros t.
    destruct (String.eqb (id t) i); reflexivity.
Qed.

(** X27: [deleteTodo] removes every todo with the given id and nothing else,
    in the same order; deleting the id that [addTodo] has just used, if no
    other todo has it, gives the list before the addition. *)
Theorem deleteTodo_spec (i : string) (todos : list Todo) :
  (forall t, In t (deleteTodo i todos) <-> In t todos /\ id t <> i) /\
  (~ In i (map id todos) ->
   forall trim now text priority category dueDate,
     deleteTodo i (addTodo trim i now text priority category dueDate todos) = todos).
Proof.
  assert (Hfresh : ~ In i (map id todos) -> deleteTodo i todos = todos).
  { intros Hn. unfold deleteTodo. induction todos as [|t l IH]; [reflexivity|].
    cbn [filter]. destruct (String.eqb_spec (id t) i) as [E|E].
    - exfalso. apply Hn. left. exact E.
    - cbn [negb]. rewrite IH; [reflexivity|]. intros H. apply Hn. right. exact H. }
  split.
  - intros t. unfold deleteTodo. rewrite filter_In, negb_true_iff.
    destruct (String.eqb_spec (id t) i); intuition congruence.
  - intros Hn trim now text priority category dueDate. unfold addTodo.
    destruct (String.eqb (trim text) EmptyString); [apply Hfresh; exact Hn|].
    unfold deleteTodo. cbn [filter id]. rewrite String.eqb_refl. cbn [negb].
    apply Hfresh. exact Hn.
Qed.

Lemma deleteTodo_spec_witness :
  deleteTodo "b"
    (addTodo (fun s => s) "b" "2024-01-01T00:00:00.000Z" "buy milk" medium "General" None
       [ {| id := "a"; text := "walk"; completed := false; priority := low;
            category := "General"; dueDate := None;
            createdAt := "2023-12-31T00:00:00.000Z" |} ])
  = [ {| id := "a"; text := "walk"; completed := false; priority := low;
         category := "General"; dueDate := None;
         createdAt := "2023-12-31T00:00:00.000Z" |} ].
Proof.
  apply (proj2 (deleteTodo_spec "b" _)).
  cbn. intros [H|[]]. discriminate.
Defined.

Lemma shown_filterByStatus (todos : list Todo) (filter : Filter) :
  shown todos filter = filterByStatus todos filter.
Proof.
  unfold shown. destruct filter; cbn [filterByStatus]; try reflexivity.
  induction todos as [|t l IH]; [reflexivity|]. cbn [List.filter]. rewrite IH. reflexivity.
Qed.

(** X28: the three places that filter by status agree: the number that
    [ExportPanel] announces is the number of todos [filterByStatus] hands to
    the exporters, and the list [TodoApp] shows is that list; the active and
    the completed todos together are all the todos, and [activeCnt] counts
    the active ones. *)
Theorem filters_agree (todos : list Todo) (filter : Filter) :
  count todos filter = List.length (filterByStatus todos filter) /\
  shown todos filter = filterByStatus todos filter /\
  count todos Active + count todos Completed = count todos All /\
  activeCnt todos = count todos Active.
Proof.
  split; [destruct filter; reflexivity|]. split; [|split; [|reflexivity]].
  - apply shown_filterByStatus.
  - cbn [count]. induction todos as [|t l IH]; [reflexivity|].
    cbn [List.filter List.length]. destruct (completed t); cbn [negb List.length]; lia.
Qed.

Lemma insert_perm (cmp : Todo -> Todo -> Z) (t : Todo) (l : list Todo) :
  Permutation (insert cmp t l) (t :: l).
Proof.
  induction l as [|u l IH]; cbn [insert]; [reflexivity|].
  destruct (0 <? cmp t u)%Z; [|reflexivity].
  rewrite IH. apply perm_swap.
Qed.

Lemma insert_sorted (t : Todo) (l : list Todo) :
  StronglySorted (fun a b => (PRIO_ORDER (priority a) <= PRIO_ORDER (priority b))%Z) l ->
  StronglySorted (fun a b => (PRIO_ORDER (priority a) <= PRIO_ORDER (priority b))%Z)
                 (insert byPriority t l).
Proof.
  induction 1 as [|u l Hs IH Hu]; cbn [insert].
  - repeat constructor.
  - unfold byPriority at 1. destruct (Z.ltb_spec 0 (PRIO_ORDER (priority t) - PRIO_ORDER (priority u))).
    + constructor; [exact IH|].
      rewrite Forall_forall in *. intros x Hx.
      apply (Permutation_in _ (insert_perm byPriority t l)) in Hx.
      destruct Hx as [<-|Hx]; [lia | apply Hu; exact Hx].
    + constructor; [constructor; assumption|].
      constructor; [lia|]. rewrite Forall_forall in *. intros x Hx.
      specialize (Hu x Hx). lia.
Qed.

Lemma insert_stable (p : Priority) (t : Todo) (l : list Todo) :
  StronglySorted (fun a b => (PRIO_ORDER (priority a) <= PRIO_ORDER (priority b))%Z) l ->
  List.filter (fun u => Z.eqb (PRIO_ORDER (priority u)) (PRIO_ORDER p)) (insert byPriority t l)
  = List.filter (fun u => Z.eqb (PRIO_ORDER (priority u)) (PRIO_ORDER p)) (t :: l).
Proof.
  induction 1 as [|u l Hs IH Hu]; cbn [insert]; [reflexivity|].
  unfold byPriority at 1.
  destruct (Z.ltb_spec 0 (PRIO_ORDER (priority t) - PRIO_ORDER (priority u))); [|reflexivity].
  cbn [List.filter] in *. rewrite IH.
  destruct (Z.eqb_spec (PRIO_ORDER (priority u)) (PRIO_ORDER p)),
           (Z.eqb_spec (PRIO_ORDER (priority t)) (PRIO_ORDER p)); try reflexivity. lia.
Qed.

Lemma sort_sorted (l : list Todo) :
  StronglySorted (fun a b => (PRIO_ORDER (priority a) <= PRIO_ORDER (priority b))%Z)
                 (sort byPriority l).
Proof.
  induction l as [|t l IH]; [constructor|]. cbn [sort fold_right].
  apply insert_sorted. exact IH.
Qed.

(** X29: the list sorted by priority holds the shown todos, each once, with
    every high priority before every medium one and those before every low
    one; among todos of one priority the order of the list is kept. *)
Theorem priority_sort (todos : list Todo) (filter : Filter) :
  Permutation (filtered_by_priority todos filter) (filterByStatus todos filter) /\
  StronglySorted (fun a b => (PRIO_ORDER (priority a) <= PRIO_ORDER (priority b))%Z)
                 (filtered_by_priority todos filter) /\
  forall p : Priority,
    List.filter (fun u => Z.eqb (PRIO_ORDER (priority u)) (PRIO_ORDER p))
                (filtered_by_priority todos filter)
    = List.filter (fun u => Z.eqb (PRIO_ORDER (priority u)) (PRIO_ORDER p))
                  (filterByStatus todos filter).
Proof.
  unfold filtered_by_priority. rewrite <- shown_filterByStatus.
  generalize (shown todos filter). intros l.
  split; [|split; [apply sort_sorted|]].
  - induction l as [|t l IH]; [reflexivity|]. cbn [sort fold_right].
    rewrite insert_perm. apply perm_skip. exact IH.
  - intros p. induction l as [|t l IH]; [reflexivity|]. cbn [sort fold_right].
    rewrite insert_stable by apply sort_sorted.
    cbn [List.filter]. fold (sort byPriority l). rewrite IH. reflexivity.
Qed.

End TodoClaims.
